(** * TachyFont: the promise chaining sequencer and the IndexedDB persistence layer

    A shallow embedding of
    - [tachyfontpromise.js]: [tachyfont.promise] (a deferred unit) and
      [tachyfont.chainedPromises] (the sequencer with its watchdog timer);
    - [persist_idb.js]: [tachyfont.Persist] (saveData, getData, deleteDatabase).

    JavaScript objects live in explicit stores: every [goog.Promise] is a cell
    of [heap], every [tachyfont.chainedPromises] object a cell of
    [containers]; a [tachyfont.promise] is immutable once its creator has set
    [precedingPromise_], so it is a plain record holding references.  The
    counters are JavaScript numbers that only ever move by one; they are
    modelled as [Z]. *)

From Stdlib Require Import ZArith Lia.
From stdpp Require Import base list strings pretty gmap.

Open Scope Z_scope.

(** ** Values and collaborators *)

(** The JavaScript values that cross the modelled interfaces. *)
Inductive jsval :=
  | VUndefined
  | VNull
  | VNum (n : Z)
  | VStr (s : string)
  | VBytes (b : list Byte.byte)
  | VEvent (type : string)
  | VException (name : string).

(** State of a [goog.Promise]. *)
Inductive pstate :=
  | Pending
  | Fulfilled (v : jsval)
  | Rejected (r : jsval).

Definition is_settled (s : pstate) : bool :=
  match s with Pending => false | _ => true end.

(** [goog.log.Level] values used by the two files ([goog.log.error] logs at
    SEVERE). *)
Inductive level := SEVERE | WARNING | FINER.

(** The diagnostics collaborators: the build flag [goog.DEBUG], the answer of
    [tachyfont.Reporter.isReady()], the calls received by
    [tachyfont.Reporter.reportError] and the entries written through
    [goog.log], both oldest first. *)
Record diag := {
  DEBUG : bool;
  reporterReady : bool;
  reported : list (string * string * jsval);
  logged : list (level * string)
}.

Definition goog_log (lv : level) (s : string) (d : diag) : diag :=
  {| DEBUG := DEBUG d; reporterReady := reporterReady d;
     reported := reported d; logged := logged d ++ [(lv, s)] |}.

Definition Reporter_reportError (code id : string) (info : jsval) (d : diag) : diag :=
  {| DEBUG := DEBUG d; reporterReady := reporterReady d;
     reported := reported d ++ [(code, id, info)]; logged := logged d |}.

(** ** tachyfontpromise.js: data *)

(** A [tachyfont.promise]: [promise_] and [precedingPromise_] are references
    into [heap], [container_] a reference into [containers]. *)
Record promise := {
  promise_ : nat;
  container_ : option nat;
  msg_ : option string;
  precedingPromise_ : option nat
}.

(** A [tachyfont.chainedPromises].  [cmsg_] is its [msg_] field;
    [intervalActive] tells whether the timer [intervalId_] is still
    registered with the runtime. *)
Record chainedPromises := {
  chainedCount_ : Z;
  pendingCount_ : Z;
  cmsg_ : string;
  intervalActive : bool;
  timerReportCount_ : Z;
  promises : list promise
}.

(** The object stores.  [settledLog] records the references of the
    [goog.Promise] objects in the order in which they left the pending state:
    what a listener attached to all of them observes. *)
Record world := {
  diagnostics : diag;
  heap : list pstate;
  settledLog : list nat;
  containers : list chainedPromises
}.

Definition on_diag (f : diag → diag) (w : world) : world :=
  {| diagnostics := f (diagnostics w); heap := heap w;
     settledLog := settledLog w; containers := containers w |}.

Definition set_container (c : nat) (cp : chainedPromises) (w : world) : world :=
  {| diagnostics := diagnostics w; heap := heap w;
     settledLog := settledLog w; containers := <[c := cp]> (containers w) |}.

Definition set_counts (chained pending : Z) (cp : chainedPromises) : chainedPromises :=
  {| chainedCount_ := chained; pendingCount_ := pending; cmsg_ := cmsg_ cp;
     intervalActive := intervalActive cp;
     timerReportCount_ := timerReportCount_ cp; promises := promises cp |}.

Definition set_promises (q : list promise) (cp : chainedPromises) : chainedPromises :=
  {| chainedCount_ := chainedCount_ cp; pendingCount_ := pendingCount_ cp;
     cmsg_ := cmsg_ cp; intervalActive := intervalActive cp;
     timerReportCount_ := timerReportCount_ cp; promises := q |}.

Definition set_timer (active : bool) (count : Z) (cp : chainedPromises) : chainedPromises :=
  {| chainedCount_ := chainedCount_ cp; pendingCount_ := pendingCount_ cp;
     cmsg_ := cmsg_ cp; intervalActive := active;
     timerReportCount_ := count; promises := promises cp |}.

(** ** goog.Promise *)

(** [new goog.Promise(...)]: a fresh pending cell. *)
Definition goog_Promise_new (w : world) : nat * world :=
  (length (heap w),
   {| diagnostics := diagnostics w; heap := heap w ++ [Pending];
      settledLog := settledLog w; containers := containers w |}).

(** Calling the captured [resolve] or [reject] function of a [goog.Promise]:
    only the first call has an effect. *)
Definition settle (h : nat) (s : pstate) (w : world) : world :=
  match heap w !! h with
  | Some Pending =>
      {| diagnostics := diagnostics w; heap := <[h := s]> (heap w);
         settledLog := settledLog w ++ [h]; containers := containers w |}
  | _ => w
  end.

(** ** tachyfont.promise *)

(** [tachyfont.promise.Error_] *)
Definition FILE_ID : string := "ETP".
Definition PRECEDING_PROMISE : string := "01".
Definition RESOLVE_CHAINED_COUNT : string := "02".
Definition REJECT_CHAINED_COUNT : string := "03".
Definition LINGERING_PROMISE : string := "04".

(** String concatenation with a possibly undefined [msg_]. *)
Definition js_string (m : option string) : string := default "undefined" m.
Definition js_value (m : option string) : jsval :=
  match m with Some s => VStr s | None => VUndefined end.

(** [tachyfont.promise.reportError_] *)
Definition promise_reportError_ (errNum : string) (errInfo : jsval) (d : diag) : diag :=
  let d1 := if DEBUG d && negb (reporterReady d)
            then goog_log SEVERE "failed to report error" d else d in
  if reporterReady d1
  then Reporter_reportError (FILE_ID +:+ errNum) "000" errInfo d1
  else d1.

(** The constructor [tachyfont.promise(opt_container, opt_msg)]. *)
Definition promise_new (opt_container : option nat) (opt_msg : option string)
    (w : world) : promise * world :=
  let '(h, w1) := goog_Promise_new w in
  ({| promise_ := h; container_ := opt_container; msg_ := opt_msg;
      precedingPromise_ := None |}, w1).

Definition set_preceding (p : option nat) (u : promise) : promise :=
  {| promise_ := promise_ u; container_ := container_ u; msg_ := msg_ u;
     precedingPromise_ := p |}.

(** [tachyfont.promise.prototype.getPromise] *)
Definition getPromise (u : promise) : nat := promise_ u.

(** [tachyfont.promise.prototype.getPrecedingPromise] *)
Definition getPrecedingPromise (u : promise) (w : world) : option nat * world :=
  match precedingPromise_ u with
  | None => (None, on_diag (promise_reportError_ PRECEDING_PROMISE (js_value (msg_ u))) w)
  | Some p => (Some p, w)
  end.

(** [promises.shift(); pendingCount_--] *)
Definition shifted (cp : chainedPromises) : chainedPromises :=
  set_counts (chainedCount_ cp) (pendingCount_ cp - 1)
    (set_promises (tail (promises cp)) cp).

(** The block guarded by [if (this.container_)] in [resolve] and [reject];
    the two copies differ in the error number only.  [shift()] is [tail]. *)
Definition retire (errNum : string) (m : option string) (c : nat) (w : world) : world :=
  match containers w !! c with
  | None => w
  | Some cp =>
      let w1 :=
        if (length (promises cp) <=? 1)%nat
        then if negb (chainedCount_ cp =? 0)
             then on_diag (promise_reportError_ errNum (js_value m)) w
             else w
        else w in
      if (1 <? length (promises cp))%nat
      then
        let cp' := shifted cp in
        let w2 := set_container c cp' w1 in
        if DEBUG (diagnostics w2)
        then on_diag (goog_log FINER
               (js_string m +:+ "dropped count to " +:+ pretty (pendingCount_ cp'))) w2
        else w2
      else w1
  end.

(** [tachyfont.promise.prototype.reject] *)
Definition reject (u : promise) (opt_value : jsval) (w : world) : world :=
  let w1 := settle (promise_ u) (Rejected opt_value) w in
  match container_ u with
  | Some c => retire REJECT_CHAINED_COUNT (msg_ u) c w1
  | None => w1
  end.

(** [tachyfont.promise.prototype.resolve] *)
Definition resolve (u : promise) (opt_value : jsval) (w : world) : world :=
  let w1 := settle (promise_ u) (Fulfilled opt_value) w in
  match container_ u with
  | Some c => retire RESOLVE_CHAINED_COUNT (msg_ u) c w1
  | None => w1
  end.

(** ** tachyfont.chainedPromises *)

(** The callback given to [setInterval] by the constructor. *)
Definition watchdog (c : nat) (w : world) : world :=
  match containers w !! c with
  | None => w
  | Some cp =>
      if negb (pendingCount_ cp =? 0)
      then
        let w1 :=
          if DEBUG (diagnostics w)
          then on_diag (goog_log WARNING
                 (cmsg_ cp +:+ "lingering pending count: " +:+ pretty (pendingCount_ cp))) w
          else w in
        let n := timerReportCount_ cp + 1 in
        if 10 <=? n
        then set_container c (set_timer false n cp)
               (on_diag (promise_reportError_ LINGERING_PROMISE
                           (VStr (cmsg_ cp +:+ "gave up checking for pending count"))) w1)
        else set_container c (set_timer (intervalActive cp) n cp) w1
      else set_container c (set_timer (intervalActive cp) 0 cp) w
  end.

(** One period of the interval timer: the runtime runs the callback as long
    as [clearInterval] has not been called. *)
Definition interval_fire (c : nat) (w : world) : world :=
  match containers w !! c with
  | Some cp => if intervalActive cp then watchdog c w else w
  | None => w
  end.

(** The constructor [tachyfont.chainedPromises(msg)]; returns the reference
    of the new object. *)
Definition chainedPromises_new (msg : string) (w : world) : nat * world :=
  let c := length (containers w) in
  let cp0 := {| chainedCount_ := 0; pendingCount_ := 0; cmsg_ := msg +:+ ": ";
                intervalActive := true; timerReportCount_ := 0; promises := [] |} in
  let w1 := {| diagnostics := diagnostics w; heap := heap w;
               settledLog := settledLog w; containers := containers w ++ [cp0] |} in
  let '(u0, w2) := promise_new (Some c) None w1 in
  let firstPromise := set_preceding (Some (promise_ u0)) u0 in
  let w3 := set_container c (set_promises (promises cp0 ++ [firstPromise]) cp0) w2 in
  (c, resolve firstPromise VUndefined w3).

(** [tachyfont.chainedPromises.prototype.getChainedPromise]; [None] stands
    for the TypeError raised when the queue has no tail to read. *)
Definition getChainedPromise (c : nat) (msg : string) (w : world) : option promise * world :=
  match containers w !! c with
  | None => (None, w)
  | Some cp =>
      let cp1 := set_counts (chainedCount_ cp + 1) (pendingCount_ cp + 1) cp in
      let w1 := set_container c cp1 w in
      let w2 :=
        if DEBUG (diagnostics w1)
        then on_diag (goog_log FINER
               (cmsg_ cp1 +:+ msg +:+ ": increase pending count to "
                +:+ pretty (pendingCount_ cp1))) w1
        else w1 in
      let precedingPromise := last (promises cp1) in
      let '(u0, w3) := promise_new (Some c) (Some msg) w2 in
      match precedingPromise with
      | None => (None, w3)
      | Some p =>
          let newPromise := set_preceding (Some (promise_ p)) u0 in
          (Some newPromise,
           set_container c (set_promises (promises cp1 ++ [newPromise]) cp1) w3)
      end
  end.

(** ** The world before any object was created *)

Definition world0 (debug ready : bool) : world :=
  {| diagnostics := {| DEBUG := debug; reporterReady := ready;
                       reported := []; logged := [] |};
     heap := []; settledLog := []; containers := [] |}.

(** ** persist_idb.js *)

(** [tachyfont.Persist.Error] *)
Definition Persist_FILE_ID : string := "EPI".
Definition OPEN_IDB : string := "01".
Definition IDB_ON_UPGRAGE_NEEDED : string := "02".
Definition DELETED_DATA : string := "03".
Definition DELETE_DATA_FAILED : string := "04".
Definition DELETE_DATA_BLOCKED : string := "05".

(** [tachyfont.Persist.reportError_] *)
Definition Persist_reportError_ (errNum errId : string) (errInfo : jsval) (d : diag) : diag :=
  let d1 := if DEBUG d && negb (reporterReady d)
            then goog_log SEVERE "failed to report error" d else d in
  if reporterReady d1
  then Reporter_reportError (Persist_FILE_ID +:+ errNum) errId errInfo d1
  else d1.

(** An open IndexedDB database: its object stores by name, each a map from
    keys to stored values. *)
Abbreviation IDB := (gmap string (gmap Z jsval)).

(** How the browser completes a request on an object store. *)
Inductive request_result := RequestSuccess | RequestError.

(** JavaScript's [x != undefined]. *)
Definition ne_undefined (x : jsval) : bool :=
  match x with VUndefined | VNull => false | _ => true end.

(** [tachyfont.Persist.saveData]: the database after the request completed
    and the state of the returned promise.  [idb.transaction] raises
    NotFoundError for an unknown store, which [goog.Promise] turns into a
    rejection. *)
Definition saveData (idb : IDB) (name : string) (data : jsval)
    (r : request_result) : IDB * pstate :=
  match idb !! name with
  | None => (idb, Rejected (VException "NotFoundError"))
  | Some store =>
      match r with
      | RequestSuccess => (<[name := <[0 := data]> store]> idb, Fulfilled VUndefined)
      | RequestError => (idb, Rejected (VEvent "error"))
      end
  end.

(** [tachyfont.Persist.getData]: the state of the returned promise after the
    request completed. *)
Definition getData (idb : IDB) (name : string) (r : request_result) : pstate :=
  match idb !! name with
  | None => Rejected (VException "NotFoundError")
  | Some store =>
      match r with
      | RequestSuccess =>
          let result := default VUndefined (store !! 0) in
          if ne_undefined result then Fulfilled result
          else Rejected (VEvent "success")
      | RequestError => Rejected (VEvent "error")
      end
  end.

(** Events delivered to the request made by [window.indexedDB.deleteDatabase]. *)
Inductive delete_event := DeleteSuccess | DeleteError | DeleteBlocked.

(** A [goog.Promise] local to one call: the first settlement wins. *)
Definition settle_once (s : pstate) (p : pstate) : pstate :=
  match p with Pending => s | _ => p end.

(** The handlers [req.onsuccess], [req.onerror] and [req.onblocked] of
    [tachyfont.Persist.deleteDatabase]. *)
Definition deleteDatabase_on (id : string) (e : delete_event) (st : diag * pstate)
    : diag * pstate :=
  match e with
  | DeleteSuccess =>
      (Persist_reportError_ DELETED_DATA id (VStr "Deleted database successfully") st.1,
       settle_once (Fulfilled VUndefined) st.2)
  | DeleteError =>
      (Persist_reportError_ DELETE_DATA_FAILED id (VStr "Delete database failed") st.1,
       settle_once (Rejected (VNum 1)) st.2)
  | DeleteBlocked =>
      (Persist_reportError_ DELETE_DATA_BLOCKED id (VStr "Delete database blocked") st.1,
       settle_once (Rejected (VNum 2)) st.2)
  end.

(** [tachyfont.Persist.deleteDatabase]: the diagnostics and the state of the
    returned promise after the browser delivered [events], in order. *)
Definition deleteDatabase (dbName id : string) (events : list delete_event) (d : diag)
    : diag * pstate :=
  foldl (λ st e, deleteDatabase_on id e st) (d, Pending) events.

(** ** Clients of one sequencer *)

(** A call made on the objects of the model. *)
Inductive call :=
  | New (msg : string)
  | GetChained (c : nat) (msg : string)
  | Resolve (u : promise) (v : jsval)
  | Reject (u : promise) (v : jsval)
  | Period (c : nat).

Definition call_step (w : world) (k : call) : world :=
  match k with
  | New msg => (chainedPromises_new msg w).2
  | GetChained c msg => (getChainedPromise c msg w).2
  | Resolve u v => resolve u v w
  | Reject u v => reject u v w
  | Period c => interval_fire c w
  end.

Definition calls (ks : list call) (w : world) : world := foldl call_step w ks.

(** What the callers of one sequencer [c] do: ask for a chained promise, or
    settle the [i]-th promise they were given (counting from 0). *)
Inductive request :=
  | Issue (msg : string)
  | ResolveNth (i : nat) (v : jsval)
  | RejectNth (i : nat) (v : jsval).

(** The world together with the promises handed out so far, oldest first. *)
Definition session : Type := world * list promise.

Definition request_step (c : nat) (s : session) (r : request) : session :=
  match r with
  | Issue msg =>
      match getChainedPromise c msg s.1 with
      | (Some u, w) => (w, s.2 ++ [u])
      | (None, w) => (w, s.2)
      end
  | ResolveNth i v =>
      match s.2 !! i with
      | Some u => (resolve u v s.1, s.2)
      | None => s
      end
  | RejectNth i v =>
      match s.2 !! i with
      | Some u => (reject u v s.1, s.2)
      | None => s
      end
  end.

Definition requests (c : nat) (rs : list request) (s : session) : session :=
  foldl (request_step c) s rs.

(** A fresh sequencer driven by [rs]. *)
Definition serve (msg : string) (rs : list request) (w : world) : nat * session :=
  let '(c, w1) := chainedPromises_new msg w in (c, requests c rs (w1, [])).

Definition is_issue (r : request) : bool :=
  match r with Issue _ => true | _ => false end.

Definition issues (rs : list request) : nat := length (filter is_issue rs).
Definition settles (rs : list request) : nat := length (filter (λ r, negb (is_issue r)) rs).

(** Every settle request names a promise that was handed out before and that
    no earlier request settled; [n] promises were handed out and those in
    [done] settled before [rs]. *)
Fixpoint settled_once_each (n : nat) (done : list nat) (rs : list request) : bool :=
  match rs with
  | [] => true
  | Issue _ :: rs' => settled_once_each (S n) done rs'
  | ResolveNth i _ :: rs' | RejectNth i _ :: rs' =>
      (i <? n)%nat && negb (bool_decide (i ∈ done)) && settled_once_each n (i :: done) rs'
  end.

(** The caller's side of the contract: a promise is settled only once the
    promise returned by its [getPrecedingPromise] has settled ([undefined]
    meaning there is nothing to wait for). *)
Definition preceding_settled (w : world) (u : promise) : bool :=
  match precedingPromise_ u with
  | None => true
  | Some p => match heap w !! p with Some st => is_settled st | None => false end
  end.

Definition waits (s : session) (r : request) : bool :=
  match r with
  | Issue _ => true
  | ResolveNth i _ | RejectNth i _ =>
      match s.2 !! i with Some u => preceding_settled s.1 u | None => true end
  end.

Fixpoint callers_wait (c : nat) (rs : list request) (s : session) : bool :=
  match rs with
  | [] => true
  | r :: rs' => waits s r && callers_wait c rs' (request_step c s r)
  end.

(** ** Predicates and values used in the statements *)

(** The queue of a sequencer is one longer than its pending count. *)
Definition queue_ok (cp : chainedPromises) : Prop :=
  Z.of_nat (length (promises cp)) = pendingCount_ cp + 1
  ∧ promises cp ≠ []
  ∧ 0 ≤ pendingCount_ cp.

Definition sequencers_ok (w : world) : Prop := Forall queue_ok (containers w).

(** The report made when the watchdog gives up. *)
Definition lingering_report (cp : chainedPromises) : string * string * jsval :=
  ("ETP04", "000", VStr (cmsg_ cp +:+ "gave up checking for pending count")).

Definition lingering_warning (cp : chainedPromises) : level * string :=
  (WARNING, cmsg_ cp +:+ "lingering pending count: " +:+ pretty (pendingCount_ cp)).

(** The report made for an event of the delete request, and the state it
    leaves a pending promise in. *)
Definition delete_report (id : string) (e : delete_event) : string * string * jsval :=
  match e with
  | DeleteSuccess => ("EPI03", id, VStr "Deleted database successfully")
  | DeleteError => ("EPI04", id, VStr "Delete database failed")
  | DeleteBlocked => ("EPI05", id, VStr "Delete database blocked")
  end.

Definition delete_outcome (e : delete_event) : pstate :=
  match e with
  | DeleteSuccess => Fulfilled VUndefined
  | DeleteError => Rejected (VNum 1)
  | DeleteBlocked => Rejected (VNum 2)
  end.

(** [pendingCount_] of sequencer [c]. *)
Definition pending (c : nat) (w : world) : Z :=
  from_option pendingCount_ 0 (containers w !! c).

(** The shape of a session on sequencer [c] whose first promise is [first]:
    the tail of the queue is the promise handed out last (the first promise
    when none was), and the promises handed out are chained in order. *)
Record session_ok (c first : nat) (s : session) : Prop := {
  ok_container :
    ∃ cp tl, containers s.1 !! c = Some cp ∧ queue_ok cp
             ∧ last (promises cp) = Some tl
             ∧ promise_ tl = (first + length s.2)%nat;
  ok_heap : length (heap s.1) = (first + 1 + length s.2)%nat;
  ok_given :
    ∀ i u, s.2 !! i = Some u →
      promise_ u = (first + 1 + i)%nat
      ∧ precedingPromise_ u = Some (first + i)%nat
      ∧ container_ u = Some c
}.

(** The settlements seen so far: the first promise, then the first [k]
    promises handed out, in that order; the later ones are pending. *)
Record in_order (first : nat) (log0 : list nat) (s : session) (k : nat) : Prop := {
  ord_bound : (k ≤ length s.2)%nat;
  ord_log : settledLog s.1 = log0 ++ first :: take k (promise_ <$> s.2);
  ord_settled :
    ∀ j, (j ≤ k)%nat → ∃ st, heap s.1 !! (first + j)%nat = Some st ∧ is_settled st = true;
  ord_pending :
    ∀ j, (k < j ≤ length s.2)%nat → heap s.1 !! (first + j)%nat = Some Pending
}.

(** ** persist_idb.js: openIndexedDB *)

(** The double quote character of the message built by [dbOpen.onerror]. *)
Definition dquote : string := String (Ascii.ascii_of_nat 34) EmptyString.

(** [db.objectStoreNames.contains], [db.deleteObjectStore] and
    [db.createObjectStore]; the last one raises ConstraintError ([None]) when
    the store exists. *)
Definition objectStoreNames_contains (name : string) (db : IDB) : bool :=
  bool_decide (is_Some (db !! name)).

Definition deleteObjectStore (name : string) (db : IDB) : IDB := delete name db.

Definition createObjectStore (name : string) (db : IDB) : option IDB :=
  if objectStoreNames_contains name db then None else Some (<[name := ∅]> db).

(** What [dbOpen.onupgradeneeded] does to the object stores.  The names
    [tachyfont.utils.IDB_BASE] and [tachyfont.utils.IDB_CHARLIST] are defined
    outside these files and are parameters here. *)
Definition onupgradeneeded (IDB_BASE IDB_CHARLIST : string) (db : IDB) : option IDB :=
  let db1 := if objectStoreNames_contains IDB_BASE db
             then deleteObjectStore IDB_BASE db else db in
  let db2 := if objectStoreNames_contains IDB_CHARLIST db1
             then deleteObjectStore IDB_CHARLIST db1 else db1 in
  match createObjectStore IDB_BASE db2 with
  | Some db3 => createObjectStore IDB_CHARLIST db3
  | None => None
  end.

(** Events delivered to the request made by [window.indexedDB.open] and to
    the transaction of its upgrade; [value] is the [e.value] of the event. *)
Inductive open_event :=
  | OpenUpgradeNeeded
  | OpenSuccess
  | OpenError
  | UpgradeError (value : option string).

#[global] Instance open_event_eq_dec : EqDecision open_event.
Proof. solve_decision. Defined.

(** The promise returned by [openIndexedDB]: it resolves with the database
    [e.target.result] and rejects with no value. *)
Inductive open_state := OpenPending | OpenResolved | OpenRejected.

Definition open_settle (s : open_state) (p : open_state) : open_state :=
  match p with OpenPending => s | _ => p end.

(** One call of [openIndexedDB] in progress: the diagnostics, the object
    stores of the database, the promise, and whether the handler
    [e.target.transaction.onerror] has been installed. *)
Record open_run := {
  open_diag : diag;
  open_db : IDB;
  open_promise : open_state;
  upgrade_onerror : bool
}.

(** The handlers of [tachyfont.Persist.openIndexedDB].  An exception raised
    by the upgrade handler aborts the upgrade: the stores stay as they were. *)
Definition openIndexedDB_on (IDB_BASE IDB_CHARLIST dbName id : string)
    (run : open_run) (e : open_event) : open_run :=
  match e with
  | OpenSuccess =>
      {| open_diag := open_diag run; open_db := open_db run;
         open_promise := open_settle OpenResolved (open_promise run);
         upgrade_onerror := upgrade_onerror run |}
  | OpenError =>
      {| open_diag := Persist_reportError_ OPEN_IDB id
                        (VStr ("!!! openIndexedDB " +:+ dquote +:+ dbName))
                        (open_diag run);
         open_db := open_db run;
         open_promise := open_settle OpenRejected (open_promise run);
         upgrade_onerror := upgrade_onerror run |}
  | OpenUpgradeNeeded =>
      {| open_diag := open_diag run;
         open_db := default (open_db run)
                      (onupgradeneeded IDB_BASE IDB_CHARLIST (open_db run));
         open_promise := open_promise run;
         upgrade_onerror := true |}
  | UpgradeError value =>
      if upgrade_onerror run
      then {| open_diag := Persist_reportError_ IDB_ON_UPGRAGE_NEEDED id
                             (VStr ("onupgradeneeded error: " +:+ js_string value))
                             (open_diag run);
              open_db := open_db run;
              open_promise := open_settle OpenRejected (open_promise run);
              upgrade_onerror := true |}
      else run
  end.

(** [tachyfont.Persist.openIndexedDB] after the browser delivered [events];
    which events it delivers depends on [tachyfont.utils.IDB_VERSION] and on
    the version of the stored database. *)
Definition openIndexedDB (IDB_BASE IDB_CHARLIST dbName id : string)
    (events : list open_event) (d : diag) (db : IDB) : open_run :=
  foldl (openIndexedDB_on IDB_BASE IDB_CHARLIST dbName id)
    {| open_diag := d; open_db := db; open_promise := OpenPending;
       upgrade_onerror := false |} events.

(** ** Further predicates used in the statements *)

Definition is_period (k : call) : bool :=
  match k with Period _ => true | _ => false end.

(** The counters and the queue of a sequencer, without its timer. *)
Definition bookkeeping (cp : chainedPromises) : Z * Z * list promise :=
  (chainedCount_ cp, pendingCount_ cp, promises cp).

(** Two worlds that differ in diagnostics and timers at most. *)
Definition same_outcome (w1 w2 : world) : Prop :=
  heap w1 = heap w2
  ∧ settledLog w1 = settledLog w2
  ∧ bookkeeping <$> containers w1 = bookkeeping <$> containers w2.

(** The timer is registered exactly as long as the streak is below 10. *)
Definition timer_ok (cp : chainedPromises) : Prop :=
  0 ≤ timerReportCount_ cp ≤ 10
  ∧ intervalActive cp = negb (timerReportCount_ cp =? 10).

(** [chainedCount_] of sequencer [c]. *)
Definition chained (c : nat) (w : world) : Z :=
  from_option chainedCount_ 0 (containers w !! c).

(** * Properties *)

(** ** Runs of the model *)

Example new_sequencer :
  chainedPromises_new "font" (world0 true true) =
  (0%nat,
   {| diagnostics := {| DEBUG := true; reporterReady := true;
                        reported := []; logged := [] |};
      heap := [Fulfilled VUndefined]; settledLog := [0%nat];
      containers :=
        [ {| chainedCount_ := 0; pendingCount_ := 0; cmsg_ := "font: ";
             intervalActive := true; timerReportCount_ := 0;
             promises := [ {| promise_ := 0; container_ := Some 0%nat;
                              msg_ := None; precedingPromise_ := Some 0%nat |} ] |} ] |}).
Proof. reflexivity. Qed.

Example three_in_order :
  let '(c, (w, given)) :=
    serve "db" [Issue "a"; Issue "b"; ResolveNth 0 VUndefined; Issue "c";
                RejectNth 1 (VNum 7); ResolveNth 2 VNull] (world0 false true) in
  heap w = [Fulfilled VUndefined; Fulfilled VUndefined; Rejected (VNum 7); Fulfilled VNull]
  ∧ settledLog w = [0; 1; 2; 3]%nat
  ∧ (promise_ <$> given) = [1; 2; 3]%nat
  ∧ (precedingPromise_ <$> given) = [Some 0; Some 1; Some 2]%nat
  ∧ (pendingCount_ <$> containers w) = [0]
  ∧ (fmap promise_ <$> (promises <$> containers w)) = [[3%nat]].
Proof. vm_compute. repeat split. Qed.

(** ** What each operation touches *)

Section footprint.
Implicit Types (w : world) (u : promise) (cp : chainedPromises).

Lemma settle_containers h s w : containers (settle h s w) = containers w.
Proof. unfold settle. by repeat case_match. Qed.

Lemma settle_diagnostics h s w : diagnostics (settle h s w) = diagnostics w.
Proof. unfold settle. by repeat case_match. Qed.

Lemma settle_heap_length h s w : length (heap (settle h s w)) = length (heap w).
Proof. unfold settle. repeat case_match; simpl; by rewrite ?length_insert. Qed.

Lemma settle_again h s w st :
  heap w !! h = Some st → is_settled st = true → settle h s w = w.
Proof. unfold settle. intros -> Hst. by destruct st. Qed.

Lemma settle_first h s w :
  heap w !! h = Some Pending →
  heap (settle h s w) = <[h := s]> (heap w)
  ∧ settledLog (settle h s w) = settledLog w ++ [h].
Proof. unfold settle. by intros ->. Qed.

Lemma retire_heap e m c w : heap (retire e m c w) = heap w.
Proof. unfold retire. by repeat case_match. Qed.

Lemma retire_settledLog e m c w : settledLog (retire e m c w) = settledLog w.
Proof. unfold retire. by repeat case_match. Qed.

Lemma retire_containers e m c w :
  containers (retire e m c w) =
  match containers w !! c with
  | Some cp =>
      if (1 <? length (promises cp))%nat
      then <[c := shifted cp]> (containers w) else containers w
  | None => containers w
  end.
Proof. unfold retire. by repeat case_match. Qed.

Lemma retire_flags e m c w :
  DEBUG (diagnostics (retire e m c w)) = DEBUG (diagnostics w)
  ∧ reporterReady (diagnostics (retire e m c w)) = reporterReady (diagnostics w).
Proof.
  unfold retire, promise_reportError_. by repeat (case_match; simpl in *).
Qed.

Lemma resolve_heap u v w :
  heap (resolve u v w) = heap (settle (promise_ u) (Fulfilled v) w)
  ∧ settledLog (resolve u v w) = settledLog (settle (promise_ u) (Fulfilled v) w).
Proof.
  unfold resolve. destruct (container_ u); [|done].
  by rewrite retire_heap, retire_settledLog.
Qed.

Lemma reject_heap u v w :
  heap (reject u v w) = heap (settle (promise_ u) (Rejected v) w)
  ∧ settledLog (reject u v w) = settledLog (settle (promise_ u) (Rejected v) w).
Proof.
  unfold reject. destruct (container_ u); [|done].
  by rewrite retire_heap, retire_settledLog.
Qed.

(** The bookkeeping of a settle operation, whatever the state of the
    promise it is called on. *)
Lemma resolve_containers u v w :
  containers (resolve u v w) =
  match container_ u with
  | Some c =>
      match containers w !! c with
      | Some cp =>
          if (1 <? length (promises cp))%nat
          then <[c := shifted cp]> (containers w) else containers w
      | None => containers w
      end
  | None => containers w
  end.
Proof.
  unfold resolve. destruct (container_ u).
  - by rewrite retire_containers, settle_containers.
  - apply settle_containers.
Qed.

Lemma reject_containers u v w :
  containers (reject u v w) =
  match container_ u with
  | Some c =>
      match containers w !! c with
      | Some cp =>
          if (1 <? length (promises cp))%nat
          then <[c := shifted cp]> (containers w) else containers w
      | None => containers w
      end
  | None => containers w
  end.
Proof.
  unfold reject. destruct (container_ u).
  - by rewrite retire_containers, settle_containers.
  - apply settle_containers.
Qed.

Lemma getChainedPromise_containers c msg w cp :
  containers w !! c = Some cp →
  containers (getChainedPromise c msg w).2 =
  let cp1 := set_counts (chainedCount_ cp + 1) (pendingCount_ cp + 1) cp in
  match last (promises cp) with
  | Some p =>
      <[c := set_promises (promises cp ++
               [ {| promise_ := length (heap w); container_ := Some c;
                    msg_ := Some msg; precedingPromise_ := Some (promise_ p) |} ]) cp1]>
        (containers w)
  | None => <[c := cp1]> (containers w)
  end.
Proof.
  intros Hc. unfold getChainedPromise. rewrite Hc. simpl.
  destruct (last (promises cp)), (DEBUG (diagnostics w)); simpl;
    by rewrite ?list_insert_insert_eq.
Qed.

Lemma interval_fire_containers c w cp :
  containers w !! c = Some cp →
  ∃ a n, containers (interval_fire c w) = <[c := set_timer a n cp]> (containers w).
Proof.
  intros Hc. unfold interval_fire, watchdog. rewrite Hc.
  destruct (intervalActive cp) eqn:Ha.
  - repeat case_match; simpl; eauto.
  - exists false, (timerReportCount_ cp). rewrite list_insert_id; [done|].
    rewrite Hc. f_equal. destruct cp; simpl in *. by subst.
Qed.
End footprint.

(** ** The queue is one longer than the pending count *)

Section invariant.
Implicit Types (w : world) (u : promise) (cp : chainedPromises).

Lemma queue_ok_shifted cp :
  queue_ok cp → (1 < length (promises cp))%nat → queue_ok (shifted cp).
Proof.
  unfold queue_ok, shifted. simpl.
  destruct (promises cp) as [|u [|u' q]]; simpl; intros (Hlen & _ & Hpos) Hq;
    try lia.
  repeat split; [lia | done | lia].
Qed.

Lemma queue_ok_set_timer a n cp : queue_ok cp → queue_ok (set_timer a n cp).
Proof. done. Qed.

Lemma queue_ok_pushed cp u :
  queue_ok cp →
  queue_ok (set_promises (promises cp ++ [u])
              (set_counts (chainedCount_ cp + 1) (pendingCount_ cp + 1) cp)).
Proof.
  unfold queue_ok. simpl. intros (Hlen & _ & Hpos).
  rewrite length_app. simpl. repeat split; [lia | | lia].
  by destruct (promises cp).
Qed.

Lemma settle_ok h s w : sequencers_ok w → sequencers_ok (settle h s w).
Proof. unfold sequencers_ok. by rewrite settle_containers. Qed.

Lemma settled_containers_ok c w :
  sequencers_ok w →
  Forall queue_ok
    match containers w !! c with
    | Some cp =>
        if (1 <? length (promises cp))%nat
        then <[c := shifted cp]> (containers w) else containers w
    | None => containers w
    end.
Proof.
  intros Hw. destruct (containers w !! c) as [cp|] eqn:Hc; [|done].
  destruct (1 <? length (promises cp))%nat eqn:Hq; [|done].
  apply Forall_insert; [done|]. apply queue_ok_shifted.
  - by eapply Forall_lookup_1.
  - by apply Nat.ltb_lt.
Qed.

Lemma resolve_ok u v w : sequencers_ok w → sequencers_ok (resolve u v w).
Proof.
  intros Hw. unfold sequencers_ok. rewrite resolve_containers.
  destruct (container_ u); [by apply settled_containers_ok | done].
Qed.

Lemma reject_ok u v w : sequencers_ok w → sequencers_ok (reject u v w).
Proof.
  intros Hw. unfold sequencers_ok. rewrite reject_containers.
  destruct (container_ u); [by apply settled_containers_ok | done].
Qed.

Lemma getChainedPromise_ok c msg w :
  sequencers_ok w → sequencers_ok (getChainedPromise c msg w).2.
Proof.
  intros Hw. unfold sequencers_ok.
  destruct (containers w !! c) as [cp|] eqn:Hc.
  - rewrite (getChainedPromise_containers _ _ _ _ Hc). simpl.
    pose proof (Forall_lookup_1 _ _ _ _ Hw Hc) as Hcp.
    destruct (last (promises cp)) as [p|] eqn:Hlast.
    + apply Forall_insert; [done|]. by apply queue_ok_pushed.
    + apply last_None in Hlast. by destruct Hcp as (_ & ? & _).
  - unfold getChainedPromise. by rewrite Hc.
Qed.

Lemma interval_fire_ok c w : sequencers_ok w → sequencers_ok (interval_fire c w).
Proof.
  intros Hw. unfold sequencers_ok.
  destruct (containers w !! c) as [cp|] eqn:Hc.
  - destruct (interval_fire_containers _ _ _ Hc) as (a & n & ->).
    apply Forall_insert; [done|]. apply queue_ok_set_timer.
    by eapply Forall_lookup_1.
  - unfold interval_fire. by rewrite Hc.
Qed.

(** The constructor adds one sequencer whose queue holds the first promise
    alone, already resolved. *)
Lemma chainedPromises_new_spec msg w :
  chainedPromises_new msg w =
  (length (containers w),
   {| diagnostics := diagnostics w;
      heap := heap w ++ [Fulfilled VUndefined];
      settledLog := settledLog w ++ [length (heap w)];
      containers := containers w ++
        [ {| chainedCount_ := 0; pendingCount_ := 0; cmsg_ := msg +:+ ": ";
             intervalActive := true; timerReportCount_ := 0;
             promises := [ {| promise_ := length (heap w);
                              container_ := Some (length (containers w));
                              msg_ := None;
                              precedingPromise_ := Some (length (heap w)) |} ] |} ] |}).
Proof.
  unfold chainedPromises_new, promise_new, goog_Promise_new, resolve, set_container.
  simpl. f_equal. unfold settle. simpl.
  rewrite lookup_app_r, Nat.sub_diag by done. simpl.
  unfold retire. simpl.
  rewrite (list_lookup_insert_eq _ (length (containers w)))
    by (rewrite length_app; simpl; lia).
  simpl. f_equal.
  - rewrite insert_app_r_alt, Nat.sub_diag by done. done.
  - rewrite insert_app_r_alt, Nat.sub_diag by done. done.
Qed.

Lemma chainedPromises_new_ok msg w :
  sequencers_ok w → sequencers_ok (chainedPromises_new msg w).2.
Proof.
  intros Hw. rewrite chainedPromises_new_spec. unfold sequencers_ok. simpl.
  apply Forall_app. split; [done|]. apply Forall_singleton.
  unfold queue_ok. simpl. split_and!; [done | done | lia].
Qed.

Lemma call_step_ok w k : sequencers_ok w → sequencers_ok (call_step w k).
Proof.
  intros Hw. destruct k; cbn [call_step].
  - by apply chainedPromises_new_ok.
  - by apply getChainedPromise_ok.
  - by apply resolve_ok.
  - by apply reject_ok.
  - by apply interval_fire_ok.
Qed.

Lemma calls_ok ks w : sequencers_ok w → sequencers_ok (calls ks w).
Proof.
  revert w. induction ks as [|k ks IH]; intros w Hw; [done|].
  apply IH. by apply call_step_ok.
Qed.
End invariant.

(** C9. Every sequencer ever constructed satisfies, after any sequence of
    constructions, [getChainedPromise], [resolve], [reject] (on any promise,
    any number of times) and timer periods: the queue length equals
    [pendingCount_ + 1], the queue is not empty and [pendingCount_] is not
    negative. *)
Theorem queue_length_is_pending_plus_one (debug ready : bool) (ks : list call) :
  Forall (λ cp, Z.of_nat (length (promises cp)) = pendingCount_ cp + 1
                ∧ promises cp ≠ []
                ∧ 0 ≤ pendingCount_ cp)
         (containers (calls ks (world0 debug ready))).
Proof.
  apply (calls_ok ks (world0 debug ready)). apply Forall_nil_2.
Qed.

(** ** getChainedPromise *)

(** The whole effect of [getChainedPromise] on a queue that has a tail. *)
Lemma getChainedPromise_result
    (c : nat) (msg : string) (w : world) (cp : chainedPromises) (tl : promise) :
  containers w !! c = Some cp →
  last (promises cp) = Some tl →
  let newPromise :=
    {| promise_ := length (heap w); container_ := Some c; msg_ := Some msg;
       precedingPromise_ := Some (promise_ tl) |} in
  ∃ w',
    getChainedPromise c msg w = (Some newPromise, w')
    ∧ containers w' =
        <[c := {| chainedCount_ := chainedCount_ cp + 1;
                  pendingCount_ := pendingCount_ cp + 1;
                  cmsg_ := cmsg_ cp; intervalActive := intervalActive cp;
                  timerReportCount_ := timerReportCount_ cp;
                  promises := promises cp ++ [newPromise] |}]> (containers w)
    ∧ heap w' = heap w ++ [Pending]
    ∧ settledLog w' = settledLog w
    ∧ reported (diagnostics w') = reported (diagnostics w).
Proof.
  intros Hc Htl newPromise.
  exists (getChainedPromise c msg w).2.
  assert (getChainedPromise c msg w
          = (Some newPromise, (getChainedPromise c msg w).2)) as Hget.
  { unfold getChainedPromise. rewrite Hc.
    cbn [set_counts promises]. rewrite Htl.
    by destruct (DEBUG _). }
  split_and!; [exact Hget | | | |].
  - rewrite (getChainedPromise_containers _ _ _ _ Hc). cbn zeta. by rewrite Htl.
  - unfold getChainedPromise. rewrite Hc. cbn [set_counts promises]. rewrite Htl.
    by destruct (DEBUG _).
  - unfold getChainedPromise. rewrite Hc. cbn [set_counts promises]. rewrite Htl.
    by destruct (DEBUG _).
  - unfold getChainedPromise. rewrite Hc. cbn [set_counts promises]. rewrite Htl.
    by destruct (DEBUG _).
Qed.

(** C6. On a sequencer whose queue has a tail, [getChainedPromise] returns a
    new promise whose preceding promise is the tail's own promise, adds one to
    [chainedCount_] and to [pendingCount_], and pushes the new promise behind
    the queue; the queued promises, their [goog.Promise] cells, the other
    sequencers and the reports are as before. *)
Theorem getChainedPromise_links_to_tail
    (c : nat) (msg : string) (w : world) (cp : chainedPromises) (tl : promise) :
  containers w !! c = Some cp →
  last (promises cp) = Some tl →
  let newPromise :=
    {| promise_ := length (heap w); container_ := Some c; msg_ := Some msg;
       precedingPromise_ := Some (promise_ tl) |} in
  ∃ w',
    getChainedPromise c msg w = (Some newPromise, w')
    ∧ containers w' =
        <[c := {| chainedCount_ := chainedCount_ cp + 1;
                  pendingCount_ := pendingCount_ cp + 1;
                  cmsg_ := cmsg_ cp; intervalActive := intervalActive cp;
                  timerReportCount_ := timerReportCount_ cp;
                  promises := promises cp ++ [newPromise] |}]> (containers w)
    ∧ heap w' = heap w ++ [Pending]
    ∧ settledLog w' = settledLog w
    ∧ reported (diagnostics w') = reported (diagnostics w).
Proof. exact (getChainedPromise_result c msg w cp tl). Qed.

Lemma getChainedPromise_links_to_tail_witness :
  ∃ w',
    getChainedPromise 0 "a" (chainedPromises_new "db" (world0 true true)).2
    = (Some {| promise_ := 1; container_ := Some 0%nat; msg_ := Some "a";
               precedingPromise_ := Some 0%nat |}, w')
    ∧ (pendingCount_ <$> containers w') = [1]
    ∧ (chainedCount_ <$> containers w') = [1]
    ∧ (fmap promise_ <$> (promises <$> containers w')) = [[0; 1]%nat]
    ∧ heap w' = [Fulfilled VUndefined; Pending].
Proof.
  destruct (getChainedPromise_links_to_tail 0 "a"
              (chainedPromises_new "db" (world0 true true)).2
              {| chainedCount_ := 0; pendingCount_ := 0; cmsg_ := "db: ";
                 intervalActive := true; timerReportCount_ := 0;
                 promises := [ {| promise_ := 0; container_ := Some 0%nat;
                                  msg_ := None; precedingPromise_ := Some 0%nat |} ] |}
              {| promise_ := 0; container_ := Some 0%nat;
                 msg_ := None; precedingPromise_ := Some 0%nat |}
              eq_refl eq_refl)
    as (w' & Hget & Hcs & Hheap & _).
  exists w'. split; [exact Hget|]. rewrite Hcs, Hheap. repeat split.
Defined.

(** ** The preceding promise *)

(** The first promise of a new sequencer is its own preceding promise. *)
Lemma first_promise_precedes_itself :
  ∃ cp u,
    containers (chainedPromises_new "db" (world0 true true)).2 !! 0%nat = Some cp
    ∧ promises cp = [u]
    ∧ precedingPromise_ u = Some (promise_ u)
    ∧ precedingPromise_ u ≠ None.
Proof. eexists _, _. repeat split; try reflexivity. discriminate. Qed.

(** C3, amended. The first promise, which the constructor of the sequencer
    pushes, has its own [goog.Promise] as preceding promise; a promise
    returned by [getChainedPromise] has the promise of the queue's tail as
    preceding promise; the preceding promise is undefined for the promises
    built with the [tachyfont.promise] constructor alone. *)
Theorem precedingPromise_undefined_only_standalone (msg : string) (w : world) :
  (∃ cp u,
      containers (chainedPromises_new msg w).2 !! (chainedPromises_new msg w).1 = Some cp
      ∧ promises cp = [u]
      ∧ precedingPromise_ u = Some (promise_ u))
  ∧ (∀ c u w', getChainedPromise c msg w = (Some u, w') →
       ∃ cp tl, containers w !! c = Some cp
                ∧ last (promises cp) = Some tl
                ∧ precedingPromise_ u = Some (promise_ tl))
  ∧ (∀ opt_container opt_msg,
       precedingPromise_ (promise_new opt_container opt_msg w).1 = None).
Proof.
  split_and!.
  - rewrite chainedPromises_new_spec. simpl.
    eexists. eexists. split; [|split].
    + by rewrite lookup_app_r, Nat.sub_diag.
    + reflexivity.
    + reflexivity.
  - intros c u w'. unfold getChainedPromise, promise_new, goog_Promise_new.
    destruct (containers w !! c) as [cp|]; [|done]. cbn [set_counts promises].
    destruct (last (promises cp)) as [tl|] eqn:Htl; [|done].
    intros [= <- _]. by exists cp, tl.
  - done.
Qed.

Lemma precedingPromise_undefined_only_standalone_witness :
  ∃ cp tl,
    containers (chainedPromises_new "db" (world0 true true)).2 !! 0%nat = Some cp
    ∧ last (promises cp) = Some tl
    ∧ Some 0%nat = Some (promise_ tl).
Proof.
  exact (proj1 (proj2 (precedingPromise_undefined_only_standalone "db"
                         (chainedPromises_new "db" (world0 true true)).2))
           0%nat
           {| promise_ := 1; container_ := Some 0%nat; msg_ := Some "db";
              precedingPromise_ := Some 0%nat |}
           _ eq_refl).
Defined.

(** ** Settling and the queue *)

(** The first promise leaves the queue when the first chained promise is
    resolved, and resolving that chained promise again takes nothing off
    [pendingCount_]. *)
Lemma first_promise_is_retired :
  let w1 := (chainedPromises_new "db" (world0 true true)).2 in
  let a := {| promise_ := 1; container_ := Some 0%nat; msg_ := Some "a";
              precedingPromise_ := Some 0%nat |} in
  let w2 := (getChainedPromise 0 "a" w1).2 in
  (fmap promise_ <$> (promises <$> containers w1)) = [[0%nat]]
  ∧ (getChainedPromise 0 "a" w1).1 = Some a
  ∧ (fmap promise_ <$> (promises <$> containers w2)) = [[0; 1]%nat]
  ∧ (fmap promise_ <$> (promises <$> containers (resolve a VUndefined w2))) = [[1%nat]]
  ∧ (pendingCount_ <$> containers (resolve a VUndefined w2)) = [0]
  ∧ (pendingCount_ <$> containers (resolve a VUndefined (resolve a VUndefined w2))) = [0].
Proof. vm_compute. repeat split. Qed.

(** C4, amended. A [resolve] or [reject] on a promise of a sequencer takes
    the head off the queue and one off [pendingCount_] when the queue holds
    more than one promise, and leaves both as they are otherwise; so it
    retires at most one promise, the oldest one, and never the last one. *)
Theorem settle_retires_the_head
    (u : promise) (v : jsval) (w : world) (c : nat) (cp : chainedPromises) :
  container_ u = Some c →
  containers w !! c = Some cp →
  ∀ w', w' = resolve u v w ∨ w' = reject u v w →
  ∃ cp', containers w' !! c = Some cp'
    ∧ if (1 <? length (promises cp))%nat
      then (∃ hd, promises cp = hd :: promises cp')
           ∧ promises cp' ≠ []
           ∧ pendingCount_ cp' = pendingCount_ cp - 1
      else promises cp' = promises cp
           ∧ pendingCount_ cp' = pendingCount_ cp.
Proof.
  intros Hu Hc w' Hw'.
  assert (containers w' =
          if (1 <? length (promises cp))%nat
          then <[c := shifted cp]> (containers w) else containers w) as ->.
  { destruct Hw' as [-> | ->].
    - by rewrite resolve_containers, Hu, Hc.
    - by rewrite reject_containers, Hu, Hc. }
  destruct (1 <? length (promises cp))%nat eqn:Hq.
  - exists (shifted cp). split.
    + apply list_lookup_insert_eq. by eapply lookup_lt_Some.
    + apply Nat.ltb_lt in Hq. unfold shifted. simpl.
      destruct (promises cp) as [|hd [|hd' q]]; simpl in *; [lia | lia |].
      split_and!; [by exists hd | done | done].
  - by exists cp.
Qed.

Lemma settle_retires_the_head_witness :
  let a := {| promise_ := 1; container_ := Some 0%nat; msg_ := Some "a";
              precedingPromise_ := Some 0%nat |} in
  let w2 := (getChainedPromise 0 "a" (chainedPromises_new "db" (world0 true true)).2).2 in
  ∃ cp', containers (reject a (VNum 3) w2) !! 0%nat = Some cp'
    ∧ (∃ hd, [ {| promise_ := 0; container_ := Some 0%nat; msg_ := None;
                  precedingPromise_ := Some 0%nat |}; a ] = hd :: promises cp')
    ∧ promises cp' ≠ []
    ∧ pendingCount_ cp' = 1 - 1.
Proof.
  intros a w2.
  exact (settle_retires_the_head a (VNum 3) w2 0%nat
           {| chainedCount_ := 1; pendingCount_ := 1; cmsg_ := "db: ";
              intervalActive := true; timerReportCount_ := 0;
              promises := [ {| promise_ := 0; container_ := Some 0%nat; msg_ := None;
                               precedingPromise_ := Some 0%nat |}; a ] |}
           eq_refl eq_refl (reject a (VNum 3) w2) (or_intror eq_refl)).
Defined.

(** Two promises are handed out and the first one is resolved twice: the
    second call takes one more off [pendingCount_] and one more promise off
    the queue, while the second promise is still pending. *)
Lemma resolving_twice_retires_twice :
  let '(c, (w, given)) :=
    serve "db" [Issue "a"; Issue "b"; ResolveNth 0 VUndefined] (world0 true true) in
  let '(w', _) := request_step c (w, given) (ResolveNth 0 VUndefined) in
  (pendingCount_ <$> containers w) = [1]
  ∧ (fmap promise_ <$> (promises <$> containers w)) = [[1; 2]%nat]
  ∧ (pendingCount_ <$> containers w') = [0]
  ∧ (fmap promise_ <$> (promises <$> containers w')) = [[2%nat]]
  ∧ heap w' = [Fulfilled VUndefined; Fulfilled VUndefined; Pending].
Proof. vm_compute. repeat split. Qed.

(** C2, amended. A [resolve] on a promise whose [goog.Promise] has settled
    already leaves that [goog.Promise] alone and runs the bookkeeping of the
    sequencer again: with more than one promise queued, one more is taken off
    the head and one more off [pendingCount_]; only with one promise queued
    are the queue and [pendingCount_] left as they are. *)
Theorem second_resolve_retires_again
    (u : promise) (v : jsval) (w : world) (st : pstate) (c : nat) (cp : chainedPromises) :
  heap w !! promise_ u = Some st →
  is_settled st = true →
  container_ u = Some c →
  containers w !! c = Some cp →
  heap (resolve u v w) = heap w
  ∧ settledLog (resolve u v w) = settledLog w
  ∧ ∃ cp', containers (resolve u v w) !! c = Some cp'
      ∧ if (1 <? length (promises cp))%nat
        then promises cp' = tail (promises cp)
             ∧ pendingCount_ cp' = pendingCount_ cp - 1
        else promises cp' = promises cp
             ∧ pendingCount_ cp' = pendingCount_ cp.
Proof.
  intros Hh Hst Hu Hc.
  destruct (resolve_heap u v w) as [-> ->].
  rewrite (settle_again _ _ _ _ Hh Hst). split_and!; [done | done |].
  rewrite resolve_containers, Hu, Hc.
  destruct (1 <? length (promises cp))%nat.
  - exists (shifted cp). split; [|done].
    apply list_lookup_insert_eq. by eapply lookup_lt_Some.
  - by exists cp.
Qed.

Lemma second_resolve_retires_again_witness :
  let a := {| promise_ := 1; container_ := Some 0%nat; msg_ := Some "a";
              precedingPromise_ := Some 0%nat |} in
  let w := (serve "db" [Issue "a"; Issue "b"; ResolveNth 0 VUndefined]
              (world0 true true)).2.1 in
  heap (resolve a VNull w) = heap w
  ∧ settledLog (resolve a VNull w) = settledLog w
  ∧ ∃ cp', containers (resolve a VNull w) !! 0%nat = Some cp'
      ∧ promises cp' = [ {| promise_ := 2; container_ := Some 0%nat; msg_ := Some "b";
                            precedingPromise_ := Some 1%nat |} ]
      ∧ pendingCount_ cp' = 1 - 1.
Proof.
  intros a w.
  exact (second_resolve_retires_again a VNull w (Fulfilled VUndefined) 0%nat
           {| chainedCount_ := 2; pendingCount_ := 1; cmsg_ := "db: ";
              intervalActive := true; timerReportCount_ := 0;
              promises := [ a; {| promise_ := 2; container_ := Some 0%nat;
                                  msg_ := Some "b";
                                  precedingPromise_ := Some 1%nat |} ] |}
           eq_refl eq_refl eq_refl eq_refl).
Defined.

(** ** The watchdog *)

Section watchdog.
Implicit Types (w : world) (cp : chainedPromises).

Lemma set_timer_id cp : set_timer (intervalActive cp) (timerReportCount_ cp) cp = cp.
Proof. by destruct cp. Qed.

Lemma interval_fire_cancelled c w cp :
  containers w !! c = Some cp → intervalActive cp = false → interval_fire c w = w.
Proof. unfold interval_fire. by intros -> ->. Qed.

Lemma interval_fire_idle c w cp :
  containers w !! c = Some cp → intervalActive cp = true → pendingCount_ cp = 0 →
  interval_fire c w = set_container c (set_timer true 0 cp) w.
Proof.
  unfold interval_fire, watchdog. intros -> Ha Hp. by rewrite Ha, Hp.
Qed.

Lemma interval_fire_pending c w cp :
  containers w !! c = Some cp → intervalActive cp = true → pendingCount_ cp ≠ 0 →
  let n := timerReportCount_ cp + 1 in
  let d := diagnostics w in
  let d' := diagnostics (interval_fire c w) in
  containers (interval_fire c w) = <[c := set_timer (negb (10 <=? n)) n cp]> (containers w)
  ∧ DEBUG d' = DEBUG d
  ∧ reporterReady d' = reporterReady d
  ∧ reported d' =
      reported d ++ (if (10 <=? n) && reporterReady d then [lingering_report cp] else [])
  ∧ logged d' =
      logged d ++ (if DEBUG d then [lingering_warning cp] else [])
               ++ (if (10 <=? n) && DEBUG d && negb (reporterReady d)
                   then [(SEVERE, "failed to report error")] else []).
Proof.
  intros Hc Ha Hp. unfold interval_fire, watchdog. rewrite Hc, Ha.
  apply Z.eqb_neq in Hp. rewrite Hp. cbn [negb].
  unfold promise_reportError_, lingering_report, lingering_warning.
  destruct w as [[dbg rdy rep lg] hp sl cs]. simpl.
  destruct (10 <=? timerReportCount_ cp + 1), dbg, rdy; simpl;
    rewrite ?app_nil_r, <-?app_assoc; done.
Qed.

(** [n] periods of the timer while [pendingCount_] stays away from zero. *)
Lemma interval_fire_iter c w cp (n : nat) :
  containers w !! c = Some cp → intervalActive cp = true → pendingCount_ cp ≠ 0 →
  0 ≤ timerReportCount_ cp < 10 →
  let k := timerReportCount_ cp + Z.of_nat n in
  let w' := Nat.iter n (interval_fire c) w in
  containers w' = <[c := set_timer (k <? 10) (Z.min k 10) cp]> (containers w)
  ∧ reporterReady (diagnostics w') = reporterReady (diagnostics w)
  ∧ reported (diagnostics w') =
      reported (diagnostics w)
      ++ (if (10 <=? k) && reporterReady (diagnostics w) then [lingering_report cp] else []).
Proof.
  intros Hc Ha Hp Hk. induction n as [|n IH]; cbn zeta.
  - simpl. rewrite Z.add_0_r.
    replace (timerReportCount_ cp <? 10) with true by (symmetry; apply Z.ltb_lt; lia).
    replace (10 <=? timerReportCount_ cp) with false by (symmetry; apply Z.leb_gt; lia).
    rewrite Z.min_l by lia. rewrite <-Ha at 1. rewrite set_timer_id.
    rewrite list_insert_id by done. by rewrite app_nil_r.
  - cbn zeta in IH. destruct IH as (Hcs & Hrdy & Hrep).
    rewrite Nat.iter_succ.
    set (w1 := Nat.iter n (interval_fire c) w) in *.
    set (k := timerReportCount_ cp + Z.of_nat n) in *.
    replace (timerReportCount_ cp + Z.of_nat (S n)) with (k + 1) by lia.
    assert (containers w1 !! c = Some (set_timer (k <? 10) (Z.min k 10) cp)) as Hc1.
    { rewrite Hcs. apply list_lookup_insert_eq. by eapply lookup_lt_Some. }
    destruct (Z.ltb_spec k 10) as [Hlt | Hge].
    + destruct (interval_fire_pending c w1 _ Hc1 eq_refl Hp)
        as (Hcs' & _ & Hrdy' & Hrep' & _).
      cbn [timerReportCount_ set_timer] in Hcs', Hrep'.
      rewrite Z.min_l in Hcs', Hrep' by lia.
      rewrite Hcs', Hrdy', Hrep', Hcs, Hrdy, Hrep, list_insert_insert_eq.
      replace (10 <=? k) with false by (symmetry; apply Z.leb_gt; lia).
      simpl. rewrite app_nil_r. split_and!; [|done|done].
      f_equal. unfold set_timer. simpl. f_equal.
      * destruct (Z.leb_spec 10 (k + 1)), (Z.ltb_spec (k + 1) 10); simpl; done || lia.
      * lia.
    + rewrite (interval_fire_cancelled c w1 _ Hc1 eq_refl).
      rewrite Hcs, Hrdy, Hrep.
      replace (k + 1 <? 10) with false by (symmetry; apply Z.ltb_ge; lia).
      replace (10 <=? k + 1) with true by (symmetry; apply Z.leb_le; lia).
      replace (10 <=? k) with true by (symmetry; apply Z.leb_le; lia).
      by rewrite !Z.min_r by lia.
Qed.
End watchdog.

(** One chained promise is pending and [goog.DEBUG] is off: a period of the
    timer raises the streak and writes no log entry. *)
Lemma watchdog_silent_without_DEBUG :
  let '(c, (w, _)) := serve "db" [Issue "a"] (world0 false true) in
  (pendingCount_ <$> containers w) = [1]
  ∧ (timerReportCount_ <$> containers w) = [0]
  ∧ (timerReportCount_ <$> containers (interval_fire c w)) = [1]
  ∧ logged (diagnostics (interval_fire c w)) = logged (diagnostics w).
Proof. vm_compute. repeat split. Qed.

(** C7, amended. While the timer is registered: a period that finds
    [pendingCount_] different from zero adds one to the streak and, when
    [goog.DEBUG] is set, writes a warning to the log; a period that finds it
    zero puts the streak back to zero (the only other log entry is the one
    the error reporter writes when it cannot report).  When the streak
    reaches 10 the
    lingering promise error is handed once to the error reporter, which
    passes it on if the Reporter is ready, and the timer is cleared: later
    periods change nothing. *)
Theorem watchdog_gives_up_after_ten
    (c : nat) (w : world) (cp : chainedPromises) :
  containers w !! c = Some cp →
  intervalActive cp = true →
  (pendingCount_ cp ≠ 0 →
     (∃ cp', containers (interval_fire c w) !! c = Some cp'
             ∧ timerReportCount_ cp' = timerReportCount_ cp + 1)
     ∧ logged (diagnostics (interval_fire c w)) =
         logged (diagnostics w)
         ++ (if DEBUG (diagnostics w) then [lingering_warning cp] else [])
         ++ (if (10 <=? timerReportCount_ cp + 1) && DEBUG (diagnostics w)
                && negb (reporterReady (diagnostics w))
             then [(SEVERE, "failed to report error")] else []))
  ∧ (pendingCount_ cp = 0 →
     ∃ cp', containers (interval_fire c w) !! c = Some cp'
            ∧ timerReportCount_ cp' = 0)
  ∧ (pendingCount_ cp ≠ 0 → 0 ≤ timerReportCount_ cp < 10 →
     ∀ n : nat,
       let k := timerReportCount_ cp + Z.of_nat n in
       let w' := Nat.iter n (interval_fire c) w in
       ∃ cp', containers w' !! c = Some cp'
         ∧ pendingCount_ cp' = pendingCount_ cp
         ∧ if k <? 10
           then intervalActive cp' = true
                ∧ timerReportCount_ cp' = k
                ∧ reported (diagnostics w') = reported (diagnostics w)
           else intervalActive cp' = false
                ∧ timerReportCount_ cp' = 10
                ∧ reported (diagnostics w') =
                    reported (diagnostics w)
                    ++ (if reporterReady (diagnostics w) then [lingering_report cp] else [])
                ∧ interval_fire c w' = w').
Proof.
  intros Hc Ha. pose proof (lookup_lt_Some _ _ _ Hc) as Hlt. split_and!.
  - intros Hp.
    destruct (interval_fire_pending c w cp Hc Ha Hp) as (Hcs & _ & _ & _ & Hlog).
    split.
    + eexists. rewrite Hcs. split; [by apply list_lookup_insert_eq | done].
    + exact Hlog.
  - intros Hp. rewrite (interval_fire_idle c w cp Hc Ha Hp).
    eexists. split; [by apply list_lookup_insert_eq | done].
  - intros Hp Hk n.
    destruct (interval_fire_iter c w cp n Hc Ha Hp Hk) as (Hcs & Hrdy & Hrep).
    cbn zeta in *. eexists. rewrite Hcs.
    split; [by apply list_lookup_insert_eq |]. split; [done|].
    destruct (Z.ltb_spec (timerReportCount_ cp + Z.of_nat n) 10) as [Hn | Hn].
    + rewrite Hrep.
      replace (10 <=? _) with false by (symmetry; apply Z.leb_gt; lia).
      simpl. rewrite app_nil_r. split_and!; [done | lia | done].
    + rewrite Hrep.
      replace (10 <=? _) with true by (symmetry; apply Z.leb_le; lia).
      simpl. split_and!; [done | lia | done |].
      eapply interval_fire_cancelled;
        [rewrite Hcs; by apply list_lookup_insert_eq | reflexivity].
Qed.

Lemma watchdog_gives_up_after_ten_witness :
  let w := (serve "db" [Issue "a"] (world0 true true)).2.1 in
  let w' := Nat.iter 12 (interval_fire 0) w in
  ∃ cp', containers w' !! 0%nat = Some cp'
    ∧ pendingCount_ cp' = 1
    ∧ intervalActive cp' = false
    ∧ timerReportCount_ cp' = 10
    ∧ reported (diagnostics w') =
        [] ++ [("ETP04", "000", VStr "db: gave up checking for pending count")]
    ∧ interval_fire 0 w' = w'.
Proof.
  intros w w'.
  exact (proj2 (proj2 (watchdog_gives_up_after_ten 0 w
                         {| chainedCount_ := 1; pendingCount_ := 1; cmsg_ := "db: ";
                            intervalActive := true; timerReportCount_ := 0;
                            promises :=
                              [ {| promise_ := 0; container_ := Some 0%nat;
                                   msg_ := None; precedingPromise_ := Some 0%nat |};
                                {| promise_ := 1; container_ := Some 0%nat;
                                   msg_ := Some "a"; precedingPromise_ := Some 0%nat |} ] |}
                         eq_refl eq_refl))
           ltac:(discriminate) ltac:(split; [discriminate | reflexivity]) 12%nat).
Defined.

(** ** persist_idb.js *)

(** C8. When the put request succeeds, [saveData] resolves and a [getData]
    on the resulting database whose get request succeeds resolves with the
    bytes that were saved; a [getData] on a store with nothing under key 0
    rejects (with the event of the request) and does not resolve. *)
Theorem saveData_getData_roundtrip
    (idb : IDB) (name : string) (store : gmap Z jsval) (bytes : list Byte.byte) :
  idb !! name = Some store →
  (saveData idb name (VBytes bytes) RequestSuccess).2 = Fulfilled VUndefined
  ∧ getData (saveData idb name (VBytes bytes) RequestSuccess).1 name RequestSuccess
    = Fulfilled (VBytes bytes)
  ∧ (store !! 0 = None →
       getData idb name RequestSuccess = Rejected (VEvent "success")
       ∧ ∀ v, getData idb name RequestSuccess ≠ Fulfilled v).
Proof.
  intros Hs. unfold saveData, getData. rewrite Hs. simpl.
  rewrite lookup_insert_eq, lookup_insert_eq. simpl. split_and!; [done | done |].
  intros ->. done.
Qed.

Lemma saveData_getData_roundtrip_witness :
  (saveData {["base" := ∅]} "base" (VBytes [Byte.x01; Byte.x02]) RequestSuccess).2
  = Fulfilled VUndefined
  ∧ getData (saveData {["base" := ∅]} "base" (VBytes [Byte.x01; Byte.x02]) RequestSuccess).1
      "base" RequestSuccess
    = Fulfilled (VBytes [Byte.x01; Byte.x02])
  ∧ getData {["base" := ∅]} "base" RequestSuccess = Rejected (VEvent "success")
  ∧ ∀ v, getData {["base" := ∅]} "base" RequestSuccess ≠ Fulfilled v.
Proof.
  pose proof (saveData_getData_roundtrip {["base" := ∅]} "base" ∅
                [Byte.x01; Byte.x02] eq_refl) as (H1 & H2 & H3).
  exact (conj H1 (conj H2 (H3 eq_refl))).
Defined.

(** C10. Whatever event completes the delete request, [deleteDatabase] hands
    a report to the error reporter of the file, which passes it to the
    Reporter when the Reporter is ready: also a successful deletion is
    reported, with code EPI03, and then resolves; a failed deletion rejects
    with 1 and a blocked one with 2. *)
Theorem deleteDatabase_reports_every_outcome
    (dbName id : string) (e : delete_event) (d : diag) :
  deleteDatabase dbName id [e] d =
    (Persist_reportError_ (match e with
                           | DeleteSuccess => DELETED_DATA
                           | DeleteError => DELETE_DATA_FAILED
                           | DeleteBlocked => DELETE_DATA_BLOCKED
                           end) id (delete_report id e).2 d,
     delete_outcome e)
  ∧ reported (deleteDatabase dbName id [e] d).1 =
      reported d ++ (if reporterReady d then [delete_report id e] else [])
  ∧ (deleteDatabase dbName id [DeleteSuccess] d).2 = Fulfilled VUndefined
  ∧ (deleteDatabase dbName id [DeleteError] d).2 = Rejected (VNum 1)
  ∧ (deleteDatabase dbName id [DeleteBlocked] d).2 = Rejected (VNum 2)
  ∧ Rejected (VNum 1) ≠ Rejected (VNum 2).
Proof.
  split_and!; try done.
  - by destruct e.
  - unfold deleteDatabase. simpl. unfold Persist_reportError_.
    destruct e, d as [dbg [|] rep lg]; simpl; rewrite ?andb_false_r, ?app_nil_r;
      simpl; try done; by destruct dbg.
Qed.

(** ** Sessions of one sequencer *)

Section sessions.
Variables c first : nat.
Implicit Types (w : world) (u : promise) (given : list promise).

Lemma last_tail {A} (q : list A) : (1 < length q)%nat → last (tail q) = last q.
Proof. destruct q as [|x [|y q]]; simpl; [lia | lia | done]. Qed.

Lemma pending_lookup w cp : containers w !! c = Some cp → pending c w = pendingCount_ cp.
Proof. unfold pending. by intros ->. Qed.

Lemma issue_ok w given msg :
  session_ok c first (w, given) →
  ∃ u w', getChainedPromise c msg w = (Some u, w')
    ∧ session_ok c first (w', given ++ [u])
    ∧ pending c w' = pending c w + 1
    ∧ heap w' = heap w ++ [Pending]
    ∧ settledLog w' = settledLog w.
Proof.
  intros [(cp & tl & Hc & Hq & Htl & Hh) Hlen Hgiven]. simpl in *.
  destruct (getChainedPromise_result c msg w cp tl Hc Htl)
    as (w' & Hget & Hcs & Hheap & Hlog & _).
  pose proof (lookup_lt_Some _ _ _ Hc) as Hlt.
  eexists _, w'. split; [exact Hget|]. split_and!; [split; simpl | | done | done].
  - eexists _, _. rewrite Hcs. split; [by apply list_lookup_insert_eq|].
    split; [by apply queue_ok_pushed|]. simpl. rewrite last_snoc.
    split; [done|]. simpl. rewrite length_app. simpl. lia.
  - rewrite Hheap, !length_app. simpl. lia.
  - intros i u [Hi | [Hle [Hi <-]%list_lookup_singleton_Some]]%lookup_app_Some.
    + by apply Hgiven.
    + simpl. split_and!; [lia | | done]. f_equal. lia.
  - rewrite (pending_lookup w cp Hc). unfold pending. rewrite Hcs.
    by rewrite list_lookup_insert_eq.
Qed.

Lemma settled_ok w given u v w' :
  session_ok c first (w, given) →
  container_ u = Some c →
  w' = resolve u v w ∨ w' = reject u v w →
  session_ok c first (w', given)
  ∧ pending c w' = (if 0 <? pending c w then pending c w - 1 else pending c w)
  ∧ ∃ st, is_settled st = true
          ∧ heap w' = heap (settle (promise_ u) st w)
          ∧ settledLog w' = settledLog (settle (promise_ u) st w).
Proof.
  intros [(cp & tl & Hc & Hq & Htl & Hh) Hlen Hgiven] Hu Hw'. simpl in *.
  pose proof (lookup_lt_Some _ _ _ Hc) as Hlt.
  assert (containers w' =
          if (1 <? length (promises cp))%nat
          then <[c := shifted cp]> (containers w) else containers w) as Hcs.
  { destruct Hw' as [-> | ->].
    - by rewrite resolve_containers, Hu, Hc.
    - by rewrite reject_containers, Hu, Hc. }
  assert (∃ st, is_settled st = true
                ∧ heap w' = heap (settle (promise_ u) st w)
                ∧ settledLog w' = settledLog (settle (promise_ u) st w)) as Hst.
  { destruct Hw' as [-> | ->].
    - exists (Fulfilled v). split; [done|]. apply resolve_heap.
    - exists (Rejected v). split; [done|]. apply reject_heap. }
  rewrite (pending_lookup w cp Hc).
  destruct Hq as (Hql & Hqn & Hqp).
  split_and!; [split; simpl | | done].
  - rewrite Hcs. destruct (Nat.ltb_spec 1 (length (promises cp))) as [Hgt | Hle].
    + exists (shifted cp), tl. split; [by apply list_lookup_insert_eq|].
      split; [by apply queue_ok_shifted|]. simpl. by rewrite last_tail.
    + by exists cp, tl.
  - destruct Hst as (st & _ & -> & _). by rewrite settle_heap_length.
  - done.
  - unfold pending. rewrite Hcs.
    destruct (Nat.ltb_spec 1 (length (promises cp))) as [Hgt | Hle],
             (Z.ltb_spec 0 (pendingCount_ cp)) as [Hp | Hp]; try lia.
    + by rewrite list_lookup_insert_eq.
    + by rewrite Hc.
Qed.
End sessions.

Lemma serve_ok (msg : string) (w : world) :
  session_ok (chainedPromises_new msg w).1 (length (heap w))
    ((chainedPromises_new msg w).2, [])
  ∧ pending (chainedPromises_new msg w).1 (chainedPromises_new msg w).2 = 0.
Proof.
  rewrite chainedPromises_new_spec. simpl. split; [split; simpl|].
  - eexists _, _. split; [by rewrite lookup_app_r, Nat.sub_diag|].
    split; [|split; [reflexivity | simpl; lia]].
    unfold queue_ok. simpl. split_and!; [done | done | lia].
  - rewrite length_app. simpl. lia.
  - intros i u. by rewrite lookup_nil.
  - unfold pending. simpl. by rewrite lookup_app_r, Nat.sub_diag.
Qed.

(** ** Counting the pending promises *)

Section counting.
Variables c first : nat.

Lemma nodup_bounded_length (n : nat) (l : list nat) :
  NoDup l → Forall (λ i, (i < n)%nat) l → (length l ≤ n)%nat.
Proof.
  intros Hnd Hall. rewrite <-(length_seq n 0).
  apply submseteq_length, NoDup_submseteq; [done|].
  intros x Hx. apply elem_of_seq.
  rewrite Forall_forall in Hall. specialize (Hall x Hx). lia.
Qed.

Lemma issues_Issue msg rs : issues (Issue msg :: rs) = S (issues rs).
Proof. reflexivity. Qed.

Lemma settles_Issue msg rs : settles (Issue msg :: rs) = settles rs.
Proof. reflexivity. Qed.

Lemma issues_settle r rs : is_issue r = false → issues (r :: rs) = issues rs.
Proof. by destruct r. Qed.

Lemma settles_settle r rs : is_issue r = false → settles (r :: rs) = S (settles rs).
Proof. by destruct r. Qed.

(** A settle request on a promise that was handed out earlier and not
    settled by an earlier request finds more than one promise queued. *)
Lemma settle_counts (s : session) (done : list nat) (i : nat) (u : promise)
    (v : jsval) (w' : world) :
  session_ok c first s → NoDup done →
  Forall (λ j, (j < length s.2)%nat) done →
  pending c s.1 = Z.of_nat (length s.2) - Z.of_nat (length done) →
  s.2 !! i = Some u → i ∉ done →
  w' = resolve u v s.1 ∨ w' = reject u v s.1 →
  session_ok c first (w', s.2)
  ∧ NoDup (i :: done)
  ∧ Forall (λ j, (j < length s.2)%nat) (i :: done)
  ∧ pending c w' = Z.of_nat (length s.2) - Z.of_nat (length (i :: done)).
Proof.
  intros Hs Hnd Hall Hp Hi Hnew Hw'. destruct s as [w given]. simpl in *.
  assert (NoDup (i :: done)) as Hnd' by by apply NoDup_cons.
  assert (Forall (λ j, (j < length given)%nat) (i :: done)) as Hall'.
  { apply Forall_cons. split; [by eapply lookup_lt_Some | done]. }
  pose proof (nodup_bounded_length _ _ Hnd' Hall') as Hbound. simpl in Hbound.
  destruct (ok_given _ _ _ Hs i u Hi) as (_ & _ & Hu).
  destruct (settled_ok c first w given u v w' Hs Hu Hw') as (Hs' & Hp' & _).
  split_and!; [done | done | done |].
  rewrite Hp', Hp. simpl.
  destruct (Z.ltb_spec 0 (Z.of_nat (length given) - Z.of_nat (length done))); lia.
Qed.

Lemma requests_cons r rs (s : session) :
  requests c (r :: rs) s = requests c rs (request_step c s r).
Proof. reflexivity. Qed.

Lemma request_step_Issue w given msg u w' :
  getChainedPromise c msg w = (Some u, w') →
  request_step c (w, given) (Issue msg) = (w', given ++ [u]).
Proof. unfold request_step. cbn [fst snd]. by intros ->. Qed.

Lemma request_step_ResolveNth w (given : list promise) i v u :
  given !! i = Some u →
  request_step c (w, given) (ResolveNth i v) = (resolve u v w, given).
Proof. unfold request_step. cbn [fst snd]. by intros ->. Qed.

Lemma request_step_RejectNth w (given : list promise) i v u :
  given !! i = Some u →
  request_step c (w, given) (RejectNth i v) = (reject u v w, given).
Proof. unfold request_step. cbn [fst snd]. by intros ->. Qed.

Lemma requests_pending (rs : list request) :
  ∀ (s : session) (done : list nat),
    session_ok c first s → NoDup done →
    Forall (λ j, (j < length s.2)%nat) done →
    pending c s.1 = Z.of_nat (length s.2) - Z.of_nat (length done) →
    settled_once_each (length s.2) done rs = true →
    session_ok c first (requests c rs s)
    ∧ length (requests c rs s).2 = (length s.2 + issues rs)%nat
    ∧ pending c (requests c rs s).1 =
        Z.of_nat (length s.2) + Z.of_nat (issues rs)
        - Z.of_nat (length done) - Z.of_nat (settles rs).
Proof.
  induction rs as [|r rs IH]; intros [w given] done Hs Hnd Hall Hp Hwf.
  { unfold issues, settles. simpl in *. split_and!; [done | lia | lia]. }
  rewrite requests_cons. cbn [fst snd] in Hall, Hp, Hwf.
  destruct r as [msg | i v | i v]; cbn [settled_once_each] in Hwf.
  - destruct (issue_ok c first w given msg Hs) as (u & w' & Hget & Hs' & Hp' & _).
    rewrite (request_step_Issue _ _ _ _ _ Hget).
    destruct (IH (w', given ++ [u]) done) as (Hok & Hlen & Hpend); cbn [fst snd].
    + done.
    + done.
    + rewrite length_app. simpl. eapply Forall_impl; [exact Hall|].
      simpl. intros; lia.
    + rewrite Hp', Hp. simpl. rewrite length_app. simpl. lia.
    + rewrite length_app, Nat.add_1_r. done.
    + rewrite issues_Issue, settles_Issue. cbn [fst snd] in Hlen, Hpend.
      rewrite length_app in Hlen, Hpend. cbn [length] in Hlen, Hpend.
      split_and!; [done | lia | lia].
  - apply andb_true_iff in Hwf as [[Hi Hnew]%andb_true_iff Hwf].
    apply Nat.ltb_lt in Hi. apply negb_true_iff, bool_decide_eq_false in Hnew.
    destruct (lookup_lt_is_Some_2 given i Hi) as [u Hu].
    rewrite (request_step_ResolveNth _ _ _ v _ Hu).
    destruct (settle_counts (w, given) done i u v (resolve u v w))
      as (Hs' & Hnd' & Hall' & Hp'); try done; [by left|].
    destruct (IH (resolve u v w, given) (i :: done)) as (Hok & Hlen & Hpend);
      try done.
    rewrite issues_settle, settles_settle by done.
    split_and!; [done | done |]. rewrite Hpend. simpl length. lia.
  - apply andb_true_iff in Hwf as [[Hi Hnew]%andb_true_iff Hwf].
    apply Nat.ltb_lt in Hi. apply negb_true_iff, bool_decide_eq_false in Hnew.
    destruct (lookup_lt_is_Some_2 given i Hi) as [u Hu].
    rewrite (request_step_RejectNth _ _ _ v _ Hu).
    destruct (settle_counts (w, given) done i u v (reject u v w))
      as (Hs' & Hnd' & Hall' & Hp'); try done; [by right|].
    destruct (IH (reject u v w, given) (i :: done)) as (Hok & Hlen & Hpend);
      try done.
    rewrite issues_settle, settles_settle by done.
    split_and!; [done | done |]. rewrite Hpend. simpl length. lia.
Qed.
End counting.

(** C5. A new sequencer hands out [M] chained promises and each settle
    request settles a promise handed out before that no earlier request
    settled, in any order and interleaved in any way with the requests for
    promises: when all [M] are settled [pendingCount_] is 0, and when all but
    one are settled it is 1. *)
Theorem pendingCount_after_settling
    (msg : string) (rs : list request) (w : world) (M : nat) :
  settled_once_each 0 [] rs = true →
  issues rs = M →
  let c := (serve msg rs w).1 in
  let w' := (serve msg rs w).2.1 in
  length (serve msg rs w).2.2 = M
  ∧ (settles rs = M → pendingCount_ <$> containers w' !! c = Some 0)
  ∧ (S (settles rs) = M → pendingCount_ <$> containers w' !! c = Some 1).
Proof.
  intros Hwf HM. unfold serve.
  destruct (chainedPromises_new msg w) as [c w1] eqn:Hnew. cbn [fst snd].
  destruct (serve_ok msg w) as [Hs Hp]. rewrite Hnew in Hs, Hp. cbn [fst snd] in *.
  destruct (requests_pending c (length (heap w)) rs (w1, []) [] Hs
              (NoDup_nil_2) (Forall_nil_2 _)) as (Hok & Hlen & Hpend).
  { cbn [fst snd length]. by rewrite Hp. }
  { done. }
  cbn [fst snd length] in *.
  destruct (ok_container _ _ _ Hok) as (cp & _ & Hc & _).
  rewrite (pending_lookup c _ cp Hc) in Hpend. rewrite Hc. simpl.
  split_and!.
  - by rewrite Hlen, HM.
  - intros Hall. f_equal. lia.
  - intros Hall. f_equal. lia.
Qed.

Lemma pendingCount_after_settling_witness :
  let rs := [Issue "a"; Issue "b"; ResolveNth 1 VNull; Issue "c"; RejectNth 0 (VNum 1)] in
  let c := (serve "db" rs (world0 true true)).1 in
  let w' := (serve "db" rs (world0 true true)).2.1 in
  length (serve "db" rs (world0 true true)).2.2 = 3%nat
  ∧ pendingCount_ <$> containers w' !! c = Some 1.
Proof.
  intros rs c w'.
  pose proof (pendingCount_after_settling "db" rs (world0 true true) 3
                eq_refl eq_refl) as (H1 & _ & H3).
  exact (conj H1 (H3 eq_refl)).
Defined.

(** ** The order of settlements *)

(** The second promise handed out is resolved before the first one: its
    [goog.Promise] settles at once, a listener sees it settle while the first
    one is pending, and the third caller, who waits for the second promise
    only, finds nothing left to wait for. *)
Lemma early_settle_is_seen_early :
  let '(c, (w, given)) :=
    serve "db" [Issue "a"; Issue "b"; ResolveNth 1 VUndefined; Issue "c"]
      (world0 true true) in
  (promise_ <$> given) = [1; 2; 3]%nat
  ∧ settledLog w = [0; 2]%nat
  ∧ heap w = [Fulfilled VUndefined; Pending; Fulfilled VUndefined; Pending]
  ∧ (preceding_settled w <$> given) = [true; false; true].
Proof. vm_compute. repeat split. Qed.

Section ordering.
Variables c first : nat.
Variable log0 : list nat.
Implicit Types (w : world) (u : promise) (given : list promise).

Lemma issue_in_order w given k u w' :
  session_ok c first (w, given) →
  in_order first log0 (w, given) k →
  heap w' = heap w ++ [Pending] →
  settledLog w' = settledLog w →
  in_order first log0 (w', given ++ [u]) k.
Proof.
  intros Hs [Hk Hlog Hset Hpen] Hheap Hlog'. simpl in *.
  pose proof (ok_heap _ _ _ Hs) as Hlen. simpl in Hlen.
  split; simpl.
  - rewrite length_app. lia.
  - rewrite Hlog', Hlog, fmap_app, take_app_le; [done|].
    by rewrite length_fmap.
  - intros j Hj. rewrite Hheap, lookup_app_l by lia. by apply Hset.
  - intros j Hj. rewrite length_app in Hj. simpl in Hj. rewrite Hheap.
    destruct (decide (j ≤ length given)%nat) as [Hle | Hgt].
    + rewrite lookup_app_l by lia. apply Hpen. lia.
    + rewrite lookup_app_r by lia.
      by replace (first + j - length (heap w))%nat with 0%nat by lia.
Qed.

Lemma settle_in_order w given k i u st w' :
  session_ok c first (w, given) →
  in_order first log0 (w, given) k →
  given !! i = Some u →
  preceding_settled w u = true →
  is_settled st = true →
  heap w' = heap (settle (promise_ u) st w) →
  settledLog w' = settledLog (settle (promise_ u) st w) →
  ∃ k', in_order first log0 (w', given) k'.
Proof.
  intros Hs [Hk Hlog Hset Hpen] Hi Hwait Hst Hheap Hlog'. simpl in *.
  pose proof (ok_heap _ _ _ Hs) as Hlen. simpl in Hlen.
  pose proof (lookup_lt_Some _ _ _ Hi) as Hlt.
  destruct (ok_given _ _ _ Hs i u Hi) as (Hu & Hprec & _). simpl in *.
  assert (i ≤ k)%nat as Hik.
  { destruct (decide (i ≤ k)%nat) as [|Hgt]; [done|].
    unfold preceding_settled in Hwait. rewrite Hprec in Hwait.
    rewrite (Hpen i) in Hwait by lia. done. }
  destruct (decide (i < k)%nat) as [Hdone | Hnext].
  - exists k.
    destruct (Hset (S i)) as (st' & Hst' & Hsettled); [lia|].
    replace (first + S i)%nat with (promise_ u) in Hst' by lia.
    rewrite (settle_again _ _ _ _ Hst' Hsettled) in Hheap, Hlog'.
    split; simpl; [done | by rewrite Hlog' | by rewrite Hheap | by rewrite Hheap].
  - assert (i = k) as -> by lia. exists (S k).
    assert (heap w !! promise_ u = Some Pending) as Hpending.
    { rewrite Hu. replace (first + 1 + k)%nat with (first + S k)%nat by lia.
      apply Hpen. lia. }
    destruct (settle_first _ st _ Hpending) as [Hheap1 Hlog1].
    rewrite Hheap1 in Hheap. rewrite Hlog1 in Hlog'.
    split; simpl.
    + lia.
    + rewrite Hlog', Hlog.
      rewrite (take_S_r _ _ (promise_ u)) by by rewrite list_lookup_fmap, Hi.
      by rewrite <-app_assoc.
    + intros j Hj. rewrite Hheap. destruct (decide (j = S k)) as [-> | Hne].
      * exists st. split; [|done].
        replace (first + S k)%nat with (promise_ u) by lia.
        apply list_lookup_insert_eq. by eapply lookup_lt_Some.
      * rewrite list_lookup_insert_ne by lia. apply Hset. lia.
    + intros j Hj. rewrite Hheap, list_lookup_insert_ne by lia. apply Hpen. lia.
Qed.

(** Any requests keep the session in shape and every request for a chained
    promise is served. *)
Lemma requests_ok (rs : list request) :
  ∀ s : session,
    session_ok c first s →
    session_ok c first (requests c rs s)
    ∧ length (requests c rs s).2 = (length s.2 + issues rs)%nat.
Proof.
  induction rs as [|r rs IH]; intros [w given] Hs.
  { unfold issues. simpl. split; [done | lia]. }
  rewrite requests_cons. destruct r as [msg | i v | i v].
  - destruct (issue_ok c first w given msg Hs) as (u & w' & Hget & Hs' & _).
    rewrite (request_step_Issue _ _ _ _ _ _ Hget).
    destruct (IH _ Hs') as [Hok Hl]. split; [done|].
    rewrite Hl, issues_Issue. cbn [fst snd]. rewrite length_app. simpl. lia.
  - rewrite issues_settle by done.
    destruct (given !! i) as [u|] eqn:Hi.
    + rewrite (request_step_ResolveNth _ _ _ _ v _ Hi).
      destruct (ok_given _ _ _ Hs i u Hi) as (_ & _ & Hu).
      apply (IH (resolve u v w, given)).
      by apply (settled_ok c first w given u v _ Hs Hu (or_introl eq_refl)).
    + unfold request_step. cbn [fst snd]. rewrite Hi. by apply (IH (w, given)).
  - rewrite issues_settle by done.
    destruct (given !! i) as [u|] eqn:Hi.
    + rewrite (request_step_RejectNth _ _ _ _ v _ Hi).
      destruct (ok_given _ _ _ Hs i u Hi) as (_ & _ & Hu).
      apply (IH (reject u v w, given)).
      by apply (settled_ok c first w given u v _ Hs Hu (or_intror eq_refl)).
    + unfold request_step. cbn [fst snd]. rewrite Hi. by apply (IH (w, given)).
Qed.

Lemma requests_in_order (rs : list request) :
  ∀ (s : session) (k : nat),
    session_ok c first s →
    in_order first log0 s k →
    callers_wait c rs s = true →
    ∃ k', in_order first log0 (requests c rs s) k'.
Proof.
  induction rs as [|r rs IH]; intros [w given] k Hs Hord Hwait.
  { by exists k. }
  rewrite requests_cons. cbn [callers_wait] in Hwait.
  apply andb_true_iff in Hwait as [Hr Hwait].
  destruct r as [msg | i v | i v]; cbn [waits fst snd] in Hr.
  - destruct (issue_ok c first w given msg Hs)
      as (u & w' & Hget & Hs' & _ & Hheap & Hlog).
    rewrite (request_step_Issue _ _ _ _ _ _ Hget) in *.
    apply (IH _ k Hs'); [|done]. by eapply issue_in_order.
  - destruct (given !! i) as [u|] eqn:Hi.
    + rewrite (request_step_ResolveNth _ _ _ _ v _ Hi) in *.
      destruct (ok_given _ _ _ Hs i u Hi) as (_ & _ & Hu).
      destruct (settled_ok c first w given u v _ Hs Hu (or_introl eq_refl))
        as (Hs' & _ & st & Hst & Hheap & Hlog).
      destruct (settle_in_order w given k i u st _ Hs Hord Hi Hr Hst Hheap Hlog)
        as [k' Hord'].
      by apply (IH _ k' Hs').
    + assert (request_step c (w, given) (ResolveNth i v) = (w, given)) as Hstep
        by (unfold request_step; cbn [fst snd]; by rewrite Hi).
      rewrite Hstep in *. by apply (IH _ k Hs).
  - destruct (given !! i) as [u|] eqn:Hi.
    + rewrite (request_step_RejectNth _ _ _ _ v _ Hi) in *.
      destruct (ok_given _ _ _ Hs i u Hi) as (_ & _ & Hu).
      destruct (settled_ok c first w given u v _ Hs Hu (or_intror eq_refl))
        as (Hs' & _ & st & Hst & Hheap & Hlog).
      destruct (settle_in_order w given k i u st _ Hs Hord Hi Hr Hst Hheap Hlog)
        as [k' Hord'].
      by apply (IH _ k' Hs').
    + assert (request_step c (w, given) (RejectNth i v) = (w, given)) as Hstep
        by (unfold request_step; cbn [fst snd]; by rewrite Hi).
      rewrite Hstep in *. by apply (IH _ k Hs).
Qed.
End ordering.

(** C1, amended. On a new sequencer every request for a chained promise is
    served; the preceding promise of the first promise handed out is the
    first promise of the sequencer, and the preceding promise of every later
    one is the promise handed out just before it.  A settle operation settles
    its own promise at once; when every caller settles its promise only after
    the preceding promise has settled, the settlements a listener sees are
    the first promise followed by the promises handed out, in the order in
    which they were handed out. *)
Theorem callers_that_wait_settle_in_order
    (msg : string) (rs : list request) (w : world) :
  let c := (chainedPromises_new msg w).1 in
  let w1 := (chainedPromises_new msg w).2 in
  let first := length (heap w) in
  let w' := (requests c rs (w1, [])).1 in
  let given := (requests c rs (w1, [])).2 in
  length given = issues rs
  ∧ (∀ u, given !! 0%nat = Some u → precedingPromise_ u = Some first)
  ∧ (∀ i u u', given !! i = Some u → given !! S i = Some u' →
       precedingPromise_ u' = Some (promise_ u))
  ∧ (∀ u v w0, heap w0 !! promise_ u = Some Pending →
       heap (resolve u v w0) !! promise_ u = Some (Fulfilled v)
       ∧ heap (reject u v w0) !! promise_ u = Some (Rejected v))
  ∧ (callers_wait c rs (w1, []) = true →
       ∃ k, settledLog w' = settledLog w ++ first :: take k (promise_ <$> given)).
Proof.
  intros c w1 first w' given.
  destruct (serve_ok msg w) as [Hs _]. fold c w1 first in Hs.
  destruct (requests_ok c first rs (w1, []) Hs) as [Hok Hlen].
  fold given in Hlen. cbn [fst snd length] in Hlen.
  split_and!.
  - done.
  - intros u Hu. destruct (ok_given _ _ _ Hok 0%nat u Hu) as (_ & -> & _).
    f_equal. lia.
  - intros i u u' Hu Hu'.
    destruct (ok_given _ _ _ Hok i u Hu) as (-> & _ & _).
    destruct (ok_given _ _ _ Hok (S i) u' Hu') as (_ & -> & _).
    f_equal. lia.
  - intros u v w0 Hpending. pose proof (lookup_lt_Some _ _ _ Hpending) as Hlt.
    destruct (resolve_heap u v w0) as [-> _]. destruct (reject_heap u v w0) as [-> _].
    destruct (settle_first _ (Fulfilled v) _ Hpending) as [-> _].
    destruct (settle_first _ (Rejected v) _ Hpending) as [-> _].
    split; by apply list_lookup_insert_eq.
  - intros Hwait.
    destruct (requests_in_order c first (settledLog w) rs (w1, []) 0 Hs) as [k Hord].
    + unfold w1, first. rewrite chainedPromises_new_spec. split; simpl.
      * done.
      * done.
      * intros j Hj. assert (j = 0)%nat as -> by lia.
        exists (Fulfilled VUndefined). split; [|done].
        rewrite Nat.add_0_r, lookup_app_r by done. by rewrite Nat.sub_diag.
      * intros j Hj. lia.
    + done.
    + exists k. apply (ord_log _ _ _ _ Hord).
Qed.

Lemma callers_that_wait_settle_in_order_witness :
  let rs := [Issue "a"; Issue "b"; ResolveNth 0 VUndefined; Issue "c";
             RejectNth 1 (VNum 7); ResolveNth 1 VNull; ResolveNth 2 VNull] in
  let s := (serve "db" rs (world0 true true)).2 in
  ∃ k, settledLog s.1 = [] ++ 0%nat :: take k (promise_ <$> s.2).
Proof.
  intros rs s.
  exact (proj2 (proj2 (proj2 (proj2
           (callers_that_wait_settle_in_order "db" rs (world0 true true)))))
           eq_refl).
Defined.

(** * Further properties of tachyfontpromise.js *)

(** ** A settled promise stays as it is *)

Section terminal.
Implicit Types (w : world) (u : promise).

Lemma getChainedPromise_heap c msg w :
  heap (getChainedPromise c msg w).2 =
    match containers w !! c with
    | Some _ => heap w ++ [Pending]
    | None => heap w
    end
  ∧ settledLog (getChainedPromise c msg w).2 = settledLog w.
Proof.
  unfold getChainedPromise, promise_new, goog_Promise_new.
  destruct (containers w !! c) as [cp|]; [|done]. cbn [set_counts promises].
  by destruct (last (promises cp)), (DEBUG _).
Qed.

Lemma interval_fire_heap c w :
  heap (interval_fire c w) = heap w
  ∧ settledLog (interval_fire c w) = settledLog w.
Proof. unfold interval_fire, watchdog. by repeat case_match. Qed.

Lemma settle_keeps h' s w h st :
  heap w !! h = Some st → is_settled st = true →
  heap (settle h' s w) !! h = Some st.
Proof.
  intros Hh Hst. unfold settle.
  destruct (heap w !! h') as [[| |]|] eqn:Hh'; simpl; try done.
  rewrite list_lookup_insert_ne; [done|].
  intros ->. rewrite Hh in Hh'. injection Hh' as ->. done.
Qed.

Lemma call_step_keeps w k h st :
  heap w !! h = Some st → is_settled st = true →
  heap (call_step w k) !! h = Some st.
Proof.
  intros Hh Hst. destruct k; cbn [call_step].
  - rewrite chainedPromises_new_spec. simpl.
    rewrite lookup_app_l; [done | by eapply lookup_lt_Some].
  - destruct (getChainedPromise_heap c msg w) as [-> _].
    destruct (containers w !! c); [|done].
    rewrite lookup_app_l; [done | by eapply lookup_lt_Some].
  - destruct (resolve_heap u v w) as [-> _]. by apply settle_keeps.
  - destruct (reject_heap u v w) as [-> _]. by apply settle_keeps.
  - by destruct (interval_fire_heap c w) as [-> _].
Qed.
End terminal.

(** X1. Once a [goog.Promise] has settled, no later construction,
    [getChainedPromise], [resolve], [reject] or timer period changes its
    state: a resolved promise cannot be turned into a rejected one, nor its
    value replaced. *)
Theorem settled_promise_keeps_its_state
    (ks : list call) (w : world) (h : nat) (st : pstate) :
  heap w !! h = Some st →
  is_settled st = true →
  heap (calls ks w) !! h = Some st.
Proof.
  revert w. induction ks as [|k ks IH]; intros w Hh Hst; [done|].
  apply IH; [|done]. by apply call_step_keeps.
Qed.

Lemma settled_promise_keeps_its_state_witness :
  let a := {| promise_ := 1; container_ := Some 0%nat; msg_ := Some "a";
              precedingPromise_ := Some 0%nat |} in
  let w := (serve "db" [Issue "a"; ResolveNth 0 (VNum 5)] (world0 true true)).2.1 in
  heap (calls [Reject a (VNum 6); Resolve a VNull; Period 0] w) !! 1%nat
  = Some (Fulfilled (VNum 5)).
Proof.
  intros a w.
  exact (settled_promise_keeps_its_state
           [Reject a (VNum 6); Resolve a VNull; Period 0] w 1
           (Fulfilled (VNum 5)) eq_refl eq_refl).
Defined.

(** ** The timer and its streak *)

Section timer.
Implicit Types (w : world) (cp : chainedPromises).

Lemma timer_ok_interval_fire c w cp :
  containers w !! c = Some cp → timer_ok cp →
  ∃ cp', containers (interval_fire c w) = <[c := cp']> (containers w)
         ∧ timer_ok cp'.
Proof.
  intros Hc [Hrange Hactive].
  destruct (intervalActive cp) eqn:Ha.
  - symmetry in Hactive. apply negb_true_iff, Z.eqb_neq in Hactive.
    destruct (decide (pendingCount_ cp = 0)) as [Hp | Hp].
    + rewrite (interval_fire_idle c w cp Hc Ha Hp).
      eexists. split; [reflexivity|]. by split.
    + destruct (interval_fire_pending c w cp Hc Ha Hp) as [-> _].
      eexists. split; [reflexivity|]. split; simpl; [lia|].
      destruct (Z.leb_spec 10 (timerReportCount_ cp + 1)),
               (Z.eqb_spec (timerReportCount_ cp + 1) 10); simpl; done || lia.
  - rewrite (interval_fire_cancelled c w cp Hc Ha).
    exists cp. split; [by rewrite list_insert_id |]. split; [done | by rewrite Ha].
Qed.

Lemma timer_ok_call_step w k :
  Forall timer_ok (containers w) → Forall timer_ok (containers (call_step w k)).
Proof.
  intros Hw. destruct k; cbn [call_step].
  - rewrite chainedPromises_new_spec. simpl. apply Forall_app. split; [done|].
    apply Forall_singleton. by split.
  - destruct (containers w !! c) as [cp|] eqn:Hc.
    + rewrite (getChainedPromise_containers _ _ _ _ Hc). cbn zeta.
      pose proof (Forall_lookup_1 _ _ _ _ Hw Hc).
      destruct (last (promises cp)); by apply Forall_insert.
    + unfold getChainedPromise. by rewrite Hc.
  - rewrite resolve_containers. destruct (container_ u) as [c|]; [|done].
    destruct (containers w !! c) as [cp|] eqn:Hc; [|done].
    pose proof (Forall_lookup_1 _ _ _ _ Hw Hc).
    destruct (1 <? length (promises cp))%nat; [|done]. by apply Forall_insert.
  - rewrite reject_containers. destruct (container_ u) as [c|]; [|done].
    destruct (containers w !! c) as [cp|] eqn:Hc; [|done].
    pose proof (Forall_lookup_1 _ _ _ _ Hw Hc).
    destruct (1 <? length (promises cp))%nat; [|done]. by apply Forall_insert.
  - destruct (containers w !! c) as [cp|] eqn:Hc.
    + destruct (timer_ok_interval_fire c w cp Hc) as (cp' & -> & Hcp').
      { by eapply Forall_lookup_1. }
      by apply Forall_insert.
    + unfold interval_fire. by rewrite Hc.
Qed.
End timer.

(** X2. For every sequencer, after any calls: the streak
    [timerReportCount_] lies between 0 and 10 and the timer is registered
    exactly when the streak is below 10; so nothing re-arms a cleared timer
    and the streak never passes the threshold. *)
Theorem timer_cleared_exactly_at_ten (debug ready : bool) (ks : list call) :
  Forall (λ cp, 0 ≤ timerReportCount_ cp ≤ 10
                ∧ intervalActive cp = negb (timerReportCount_ cp =? 10))
         (containers (calls ks (world0 debug ready))).
Proof.
  assert (∀ w, Forall timer_ok (containers w) →
               Forall timer_ok (containers (calls ks w))) as Hcalls.
  { induction ks as [|k ks IH]; intros w Hw; [done|].
    apply IH. by apply timer_ok_call_step. }
  apply (Hcalls (world0 debug ready)). apply Forall_nil_2.
Qed.

(** ** The watchdog only diagnoses *)

Section diagnostic_only.
Implicit Types (w : world) (cp : chainedPromises) (l : list chainedPromises).

Lemma bookkeeping_lookup l1 l2 c :
  bookkeeping <$> l1 = bookkeeping <$> l2 →
  bookkeeping <$> (l1 !! c) = bookkeeping <$> (l2 !! c).
Proof. intros H. by rewrite <-!list_lookup_fmap, H. Qed.

Lemma same_settled_containers c l1 l2 :
  bookkeeping <$> l1 = bookkeeping <$> l2 →
  bookkeeping <$>
    match l1 !! c with
    | Some cp => if (1 <? length (promises cp))%nat then <[c := shifted cp]> l1 else l1
    | None => l1
    end
  = bookkeeping <$>
    match l2 !! c with
    | Some cp => if (1 <? length (promises cp))%nat then <[c := shifted cp]> l2 else l2
    | None => l2
    end.
Proof.
  intros H. pose proof (bookkeeping_lookup _ _ c H) as Hc.
  destruct (l1 !! c) as [cp1|], (l2 !! c) as [cp2|]; simpl in Hc; try done.
  injection Hc as Hch Hpe Hpr. rewrite Hpr.
  destruct (1 <? length (promises cp2))%nat; [|done].
  rewrite !list_fmap_insert, H. f_equal.
  unfold bookkeeping, shifted. simpl. by rewrite Hch, Hpe, Hpr.
Qed.

Lemma same_settle h s w1 w2 :
  heap w1 = heap w2 → settledLog w1 = settledLog w2 →
  heap (settle h s w1) = heap (settle h s w2)
  ∧ settledLog (settle h s w1) = settledLog (settle h s w2).
Proof.
  intros Hh Hl. unfold settle. rewrite <-Hh.
  destruct (heap w1 !! h) as [[| |]|]; simpl; by rewrite ?Hh, ?Hl.
Qed.

Lemma same_outcome_period c w1 w2 :
  same_outcome w1 w2 → same_outcome (interval_fire c w1) w2.
Proof.
  intros (Hh & Hl & Hb). destruct (interval_fire_heap c w1) as [Hh' Hl'].
  split_and!; [by rewrite Hh' | by rewrite Hl' |].
  rewrite <-Hb. destruct (containers w1 !! c) as [cp|] eqn:Hc.
  - destruct (interval_fire_containers c w1 cp Hc) as (a & n & ->).
    rewrite list_fmap_insert. apply list_insert_id.
    by rewrite list_lookup_fmap, Hc.
  - unfold interval_fire. by rewrite Hc.
Qed.

Lemma same_outcome_step w1 w2 k :
  is_period k = false →
  same_outcome w1 w2 → same_outcome (call_step w1 k) (call_step w2 k).
Proof.
  intros Hk (Hh & Hl & Hb).
  pose proof (f_equal length Hb) as Hlen. rewrite !length_fmap in Hlen.
  destruct k; cbn [call_step]; try done.
  - rewrite !chainedPromises_new_spec. unfold same_outcome. simpl.
    rewrite !fmap_app, Hh, Hl, Hb, Hlen. done.
  - pose proof (bookkeeping_lookup _ _ c Hb) as Hc.
    destruct (getChainedPromise_heap c msg w1) as [Hh1 Hl1].
    destruct (getChainedPromise_heap c msg w2) as [Hh2 Hl2].
    unfold same_outcome. rewrite Hh1, Hh2, Hl1, Hl2.
    destruct (containers w1 !! c) as [cp1|] eqn:Hc1,
             (containers w2 !! c) as [cp2|] eqn:Hc2; simpl in Hc; try done.
    + injection Hc as Hch Hpe Hpr.
      rewrite (getChainedPromise_containers _ _ _ _ Hc1),
              (getChainedPromise_containers _ _ _ _ Hc2). cbn zeta.
      rewrite Hh, Hl, Hpr. split_and!; [done | done |].
      destruct (last (promises cp2)); rewrite !list_fmap_insert, Hb; f_equal;
        unfold bookkeeping; simpl; by rewrite ?Hch, ?Hpe, ?Hpr.
    + unfold getChainedPromise. rewrite Hc1, Hc2. done.
  - destruct (resolve_heap u v w1) as [Hh1 Hl1].
    destruct (resolve_heap u v w2) as [Hh2 Hl2].
    destruct (same_settle (promise_ u) (Fulfilled v) w1 w2 Hh Hl) as [Hh' Hl'].
    unfold same_outcome. rewrite Hh1, Hh2, Hl1, Hl2, !resolve_containers.
    split_and!; [done | done |].
    destruct (container_ u); [by apply same_settled_containers | done].
  - destruct (reject_heap u v w1) as [Hh1 Hl1].
    destruct (reject_heap u v w2) as [Hh2 Hl2].
    destruct (same_settle (promise_ u) (Rejected v) w1 w2 Hh Hl) as [Hh' Hl'].
    unfold same_outcome. rewrite Hh1, Hh2, Hl1, Hl2, !reject_containers.
    split_and!; [done | done |].
    destruct (container_ u); [by apply same_settled_containers | done].
Qed.

Lemma same_outcome_calls ks :
  ∀ w1 w2, same_outcome w1 w2 →
    same_outcome (calls ks w1) (calls (filter (λ k, is_period k = false) ks) w2).
Proof.
  induction ks as [|k ks IH]; intros w1 w2 Hw; [done|].
  rewrite filter_cons. destruct (decide (is_period k = false)) as [Hk | Hk].
  - apply (IH (call_step w1 k) (call_step w2 k)). by apply same_outcome_step.
  - destruct k; try done. apply (IH (interval_fire c w1) w2).
    by apply same_outcome_period.
Qed.
End diagnostic_only.

(** X3. The periods of the watchdog timer change nothing but diagnostics and
    timer fields: a sequence of calls and the same sequence without its timer
    periods end with the same [goog.Promise] states, the same order of
    settlements, and the same counters and queue in every sequencer. *)
Theorem watchdog_only_diagnoses (ks : list call) (w : world) :
  let w1 := calls ks w in
  let w2 := calls (filter (λ k, is_period k = false) ks) w in
  heap w1 = heap w2
  ∧ settledLog w1 = settledLog w2
  ∧ (chainedCount_ <$> containers w1) = (chainedCount_ <$> containers w2)
  ∧ (pendingCount_ <$> containers w1) = (pendingCount_ <$> containers w2)
  ∧ (promises <$> containers w1) = (promises <$> containers w2).
Proof.
  intros w1 w2.
  destruct (same_outcome_calls ks w w) as (Hh & Hl & Hb); [done|].
  fold w1 w2 in Hh, Hl, Hb. split_and!; [done | done | | |].
  - apply (f_equal (fmap (λ b, b.1.1))) in Hb.
    by rewrite <-!list_fmap_compose in Hb.
  - apply (f_equal (fmap (λ b, b.1.2))) in Hb.
    by rewrite <-!list_fmap_compose in Hb.
  - apply (f_equal (fmap (λ b, b.2))) in Hb.
    by rewrite <-!list_fmap_compose in Hb.
Qed.

(** ** Counters, handles and reports in a session *)

Section session_counters.
Variables c first : nat.
Implicit Types (w : world) (u : promise) (given : list promise).

Lemma chained_lookup w cp : containers w !! c = Some cp → chained c w = chainedCount_ cp.
Proof. unfold chained. by intros ->. Qed.

Lemma retire_chained e m c' w : chained c (retire e m c' w) = chained c w.
Proof.
  unfold chained. rewrite retire_containers.
  destruct (containers w !! c') as [cp|] eqn:Hc'; [|done].
  destruct (1 <? length (promises cp))%nat; [|done].
  destruct (decide (c' = c)) as [-> | Hne].
  - rewrite list_lookup_insert_eq by by eapply lookup_lt_Some. by rewrite Hc'.
  - by rewrite list_lookup_insert_ne.
Qed.

Lemma settled_chained u v w :
  chained c (resolve u v w) = chained c w ∧ chained c (reject u v w) = chained c w.
Proof.
  unfold resolve, reject. destruct (container_ u).
  - rewrite !retire_chained. unfold chained. by rewrite !settle_containers.
  - unfold chained. by rewrite !settle_containers.
Qed.

Lemma issue_counts w given msg :
  session_ok c first (w, given) →
  ∃ u w', getChainedPromise c msg w = (Some u, w')
    ∧ session_ok c first (w', given ++ [u])
    ∧ pending c w' = pending c w + 1
    ∧ chained c w' = chained c w + 1
    ∧ reported (diagnostics w') = reported (diagnostics w).
Proof.
  intros Hs. destruct (issue_ok c first w given msg Hs) as (u & w' & Hget & Hs' & Hp & _).
  exists u, w'. split_and!; [done | done | done | |].
  - destruct (ok_container _ _ _ Hs) as (cp & tl & Hc & _ & Htl & _). simpl in Hc.
    destruct (getChainedPromise_result c msg w cp tl Hc Htl)
      as (w2 & Hget2 & Hcs & _). rewrite Hget in Hget2. injection Hget2 as _ <-.
    rewrite (chained_lookup w cp Hc). unfold chained. rewrite Hcs.
    by rewrite list_lookup_insert_eq by by eapply lookup_lt_Some.
  - destruct (ok_container _ _ _ Hs) as (cp & tl & Hc & _ & Htl & _). simpl in Hc.
    destruct (getChainedPromise_result c msg w cp tl Hc Htl)
      as (w2 & Hget2 & _ & _ & _ & Hrep). rewrite Hget in Hget2.
    by injection Hget2 as _ <-.
Qed.

Lemma requests_chained (rs : list request) :
  ∀ s : session,
    session_ok c first s →
    pending c s.1 ≤ chained c s.1 →
    chained c (requests c rs s).1 = chained c s.1 + Z.of_nat (issues rs)
    ∧ pending c (requests c rs s).1 ≤ chained c (requests c rs s).1.
Proof.
  induction rs as [|r rs IH]; intros [w given] Hs Hle; cbn [fst snd] in *.
  { unfold issues. simpl. split; [lia | done]. }
  rewrite requests_cons. destruct r as [msg | i v | i v].
  - destruct (issue_counts w given msg Hs) as (u & w' & Hget & Hs' & Hp & Hch & _).
    rewrite (request_step_Issue _ _ _ _ _ _ Hget), issues_Issue.
    destruct (IH (w', given ++ [u]) Hs') as [Hc' Hle']; cbn [fst snd]; [lia|].
    cbn [fst snd] in Hc'. split; [lia | done].
  - rewrite issues_settle by done. destruct (given !! i) as [u|] eqn:Hi.
    + rewrite (request_step_ResolveNth _ _ _ _ v _ Hi).
      destruct (ok_given _ _ _ Hs i u Hi) as (_ & _ & Hu).
      destruct (settled_ok c first w given u v _ Hs Hu (or_introl eq_refl))
        as (Hs' & Hp & _).
      destruct (settled_chained u v w) as [Hch _].
      destruct (IH (resolve u v w, given) Hs') as [Hc' Hle']; cbn [fst snd].
      { rewrite Hp, Hch. destruct (0 <? pending c w); lia. }
      cbn [fst snd] in Hc'. split; [lia | done].
    + assert (request_step c (w, given) (ResolveNth i v) = (w, given)) as ->
        by (unfold request_step; cbn [fst snd]; by rewrite Hi).
      by apply (IH (w, given)).
  - rewrite issues_settle by done. destruct (given !! i) as [u|] eqn:Hi.
    + rewrite (request_step_RejectNth _ _ _ _ v _ Hi).
      destruct (ok_given _ _ _ Hs i u Hi) as (_ & _ & Hu).
      destruct (settled_ok c first w given u v _ Hs Hu (or_intror eq_refl))
        as (Hs' & Hp & _).
      destruct (settled_chained u v w) as [_ Hch].
      destruct (IH (reject u v w, given) Hs') as [Hc' Hle']; cbn [fst snd].
      { rewrite Hp, Hch. destruct (0 <? pending c w); lia. }
      cbn [fst snd] in Hc'. split; [lia | done].
    + assert (request_step c (w, given) (RejectNth i v) = (w, given)) as ->
        by (unfold request_step; cbn [fst snd]; by rewrite Hi).
      by apply (IH (w, given)).
Qed.
End session_counters.

Lemma serve_chained (msg : string) (w : world) :
  chained (chainedPromises_new msg w).1 (chainedPromises_new msg w).2 = 0.
Proof.
  rewrite chainedPromises_new_spec. unfold chained. simpl.
  by rewrite lookup_app_r, Nat.sub_diag.
Qed.

(** X4. On a new sequencer, whatever the callers do (settling late, twice or
    never), [chainedCount_] is the number of chained promises handed out and
    [pendingCount_] stays between 0 and [chainedCount_]. *)
Theorem chainedCount_counts_issues (msg : string) (rs : list request) (w : world) :
  let c := (serve msg rs w).1 in
  let w' := (serve msg rs w).2.1 in
  ∃ cp, containers w' !! c = Some cp
    ∧ chainedCount_ cp = Z.of_nat (issues rs)
    ∧ 0 ≤ pendingCount_ cp ≤ chainedCount_ cp.
Proof.
  unfold serve. destruct (chainedPromises_new msg w) as [c w1] eqn:Hnew.
  cbn [fst snd].
  destruct (serve_ok msg w) as [Hs Hp]. pose proof (serve_chained msg w) as Hch.
  rewrite Hnew in Hs, Hp, Hch. cbn [fst snd] in *.
  destruct (requests_ok c (length (heap w)) rs (w1, []) Hs) as [Hok _].
  destruct (requests_chained c (length (heap w)) rs (w1, []) Hs) as [Hc Hle];
    cbn [fst snd] in *; [lia|].
  destruct (ok_container _ _ _ Hok) as (cp & _ & Hcp & (_ & _ & Hpos) & _).
  rewrite (chained_lookup c _ cp Hcp) in Hc, Hle.
  rewrite (pending_lookup c _ cp Hcp) in Hle.
  exists cp. split_and!; [done | lia | done | lia].
Qed.

(** X5. The promises a sequencer hands out each have a [goog.Promise] of
    their own: the references are pairwise different and different from the
    first promise's; each promise refers back to the sequencer, and asking it
    for its preceding promise yields a promise and reports nothing. *)
Theorem chained_promises_are_fresh (msg : string) (rs : list request) (w : world) :
  let c := (serve msg rs w).1 in
  let w' := (serve msg rs w).2.1 in
  let given := (serve msg rs w).2.2 in
  NoDup (promise_ <$> given)
  ∧ (length (heap w) ∉ (promise_ <$> given))
  ∧ Forall (λ u, container_ u = Some c
                 ∧ is_Some (heap w' !! promise_ u)
                 ∧ ∃ p, getPrecedingPromise u w' = (Some p, w')) given.
Proof.
  unfold serve. destruct (chainedPromises_new msg w) as [c w1] eqn:Hnew.
  cbn [fst snd].
  destruct (serve_ok msg w) as [Hs _]. rewrite Hnew in Hs. cbn [fst snd] in Hs.
  destruct (requests_ok c (length (heap w)) rs (w1, []) Hs) as [Hok _].
  destruct (requests c rs (w1, [])) as [w' given]. cbn [fst snd].
  pose proof (ok_given _ _ _ Hok) as Hgiven. pose proof (ok_heap _ _ _ Hok) as Hheap.
  cbn [fst snd] in *.
  split_and!.
  - apply NoDup_alt. intros i j h Hi Hj.
    apply list_lookup_fmap_Some in Hi as (u & -> & Hu).
    apply list_lookup_fmap_Some in Hj as (u' & Heq & Hu').
    destruct (Hgiven i u Hu) as (Hpi & _). destruct (Hgiven j u' Hu') as (Hpj & _).
    lia.
  - intros (i & Hi)%list_elem_of_lookup_1.
    apply list_lookup_fmap_Some in Hi as (u & Heq & Hu).
    destruct (Hgiven i u Hu) as (Hpi & _). lia.
  - apply Forall_lookup_2. intros i u Hu.
    destruct (Hgiven i u Hu) as (Hp & Hprec & Hc).
    pose proof (lookup_lt_Some _ _ _ Hu) as Hlt.
    split_and!; [done | |].
    + apply lookup_lt_is_Some. lia.
    + unfold getPrecedingPromise. rewrite Hprec. eauto.
Qed.

(** ** When the count errors are reported *)

Section count_errors.
Variables c first : nat.
Implicit Types (w : world) (u : promise) (given : list promise).

Lemma reportError_reported e info d :
  reported (promise_reportError_ e info d) =
  reported d ++ (if reporterReady d then [(FILE_ID +:+ e, "000", info)] else []).
Proof.
  unfold promise_reportError_.
  destruct d as [dbg [|] rep lg]; simpl; rewrite ?andb_false_r; simpl; [done|].
  destruct dbg; simpl; by rewrite app_nil_r.
Qed.

Lemma retire_quiet e m w cp :
  containers w !! c = Some cp → (1 < length (promises cp))%nat →
  reported (diagnostics (retire e m c w)) = reported (diagnostics w).
Proof.
  intros Hc Hq. unfold retire. rewrite Hc.
  replace (length (promises cp) <=? 1)%nat with false
    by (symmetry; apply Nat.leb_gt; lia).
  replace (1 <? length (promises cp))%nat with true
    by (symmetry; apply Nat.ltb_lt; lia).
  by destruct (DEBUG _).
Qed.

Lemma retire_short e m w cp :
  containers w !! c = Some cp → (length (promises cp) ≤ 1)%nat →
  chainedCount_ cp ≠ 0 →
  retire e m c w = on_diag (promise_reportError_ e (js_value m)) w.
Proof.
  intros Hc Hq Hn. unfold retire. rewrite Hc.
  replace (length (promises cp) <=? 1)%nat with true
    by (symmetry; apply Nat.leb_le; lia).
  replace (1 <? length (promises cp))%nat with false
    by (symmetry; apply Nat.ltb_ge; lia).
  apply Z.eqb_neq in Hn. by rewrite Hn.
Qed.

Lemma settled_quiet w given u v :
  session_ok c first (w, given) → container_ u = Some c → 0 < pending c w →
  reported (diagnostics (resolve u v w)) = reported (diagnostics w)
  ∧ reported (diagnostics (reject u v w)) = reported (diagnostics w).
Proof.
  intros Hs Hu Hp.
  destruct (ok_container _ _ _ Hs) as (cp & _ & Hc & (Hlen & _) & _). simpl in Hc.
  rewrite (pending_lookup c w cp Hc) in Hp.
  unfold resolve, reject. rewrite Hu.
  rewrite !(retire_quiet _ _ _ cp), !settle_diagnostics;
    rewrite ?settle_containers; done || lia.
Qed.

Lemma requests_quiet (rs : list request) :
  ∀ (s : session) (done : list nat),
    session_ok c first s → NoDup done →
    Forall (λ j, (j < length s.2)%nat) done →
    pending c s.1 = Z.of_nat (length s.2) - Z.of_nat (length done) →
    settled_once_each (length s.2) done rs = true →
    reported (diagnostics (requests c rs s).1) = reported (diagnostics s.1).
Proof.
  induction rs as [|r rs IH]; intros [w given] dn Hs Hnd Hall Hp Hwf; [reflexivity|].
  rewrite requests_cons. cbn [fst snd] in Hall, Hp, Hwf |- *.
  destruct r as [msg | i v | i v]; cbn [settled_once_each] in Hwf.
  - destruct (issue_counts c first w given msg Hs)
      as (u & w' & Hget & Hs' & Hp' & _ & Hrep).
    rewrite (request_step_Issue _ _ _ _ _ _ Hget).
    rewrite (IH (w', given ++ [u]) dn); cbn [fst snd]; try done.
    + rewrite length_app. simpl. eapply Forall_impl; [exact Hall|].
      simpl. intros; lia.
    + rewrite Hp', Hp, length_app. simpl. lia.
    + by rewrite length_app, Nat.add_1_r.
  - apply andb_true_iff in Hwf as [[Hi Hnew]%andb_true_iff Hwf].
    apply Nat.ltb_lt in Hi. apply negb_true_iff, bool_decide_eq_false in Hnew.
    destruct (lookup_lt_is_Some_2 given i Hi) as [u Hu].
    rewrite (request_step_ResolveNth _ _ _ _ v _ Hu).
    destruct (settle_counts c first (w, given) dn i u v (resolve u v w))
      as (Hs' & Hnd' & Hall' & Hp'); try done; [by left|].
    pose proof (nodup_bounded_length _ _ Hnd' Hall') as Hbound.
    cbn [fst snd length] in *.
    destruct (ok_given _ _ _ Hs i u Hu) as (_ & _ & Hcu).
    destruct (settled_quiet w given u v Hs Hcu) as [Hq _]; [lia|].
    rewrite (IH (resolve u v w, given) (i :: dn)); try done.
  - apply andb_true_iff in Hwf as [[Hi Hnew]%andb_true_iff Hwf].
    apply Nat.ltb_lt in Hi. apply negb_true_iff, bool_decide_eq_false in Hnew.
    destruct (lookup_lt_is_Some_2 given i Hi) as [u Hu].
    rewrite (request_step_RejectNth _ _ _ _ v _ Hu).
    destruct (settle_counts c first (w, given) dn i u v (reject u v w))
      as (Hs' & Hnd' & Hall' & Hp'); try done; [by right|].
    pose proof (nodup_bounded_length _ _ Hnd' Hall') as Hbound.
    cbn [fst snd length] in *.
    destruct (ok_given _ _ _ Hs i u Hu) as (_ & _ & Hcu).
    destruct (settled_quiet w given u v Hs Hcu) as [_ Hq]; [lia|].
    rewrite (IH (reject u v w, given) (i :: dn)); try done.
Qed.
End count_errors.

(** X6. When every chained promise is settled at most once, and only after
    it was handed out, the sequencer never reports an error: neither
    RESOLVE_CHAINED_COUNT nor REJECT_CHAINED_COUNT reaches the Reporter. *)
Theorem well_behaved_sessions_report_nothing
    (msg : string) (rs : list request) (w : world) :
  settled_once_each 0 [] rs = true →
  reported (diagnostics (serve msg rs w).2.1) = reported (diagnostics w).
Proof.
  intros Hwf. unfold serve.
  destruct (chainedPromises_new msg w) as [c w1] eqn:Hnew. cbn [fst snd].
  destruct (serve_ok msg w) as [Hs Hp]. rewrite Hnew in Hs, Hp. cbn [fst snd] in *.
  rewrite (requests_quiet c (length (heap w)) rs (w1, []) [] Hs
             (NoDup_nil_2) (Forall_nil_2 _)); cbn [fst snd length].
  - pose proof (chainedPromises_new_spec msg w) as Hspec. rewrite Hnew in Hspec.
    by injection Hspec as _ ->.
  - by rewrite Hp.
  - done.
Qed.

Lemma well_behaved_sessions_report_nothing_witness :
  reported (diagnostics
    (serve "db" [Issue "a"; Issue "b"; RejectNth 1 VNull; ResolveNth 0 VNull]
       (world0 true true)).2.1) = [].
Proof.
  exact (well_behaved_sessions_report_nothing "db"
           [Issue "a"; Issue "b"; RejectNth 1 VNull; ResolveNth 0 VNull]
           (world0 true true) eq_refl).
Defined.

(** X7. When every chained promise handed out (at least one) has been
    settled once, settling one of them again changes no queue and no
    counter, and is reported when the Reporter is ready: a second [resolve]
    as ETP02 and a second [reject] as ETP03, each with the promise's message. *)
Theorem settling_again_is_reported
    (msg : string) (rs : list request) (w : world) (i : nat) (u : promise) (v : jsval) :
  settled_once_each 0 [] rs = true →
  issues rs = settles rs →
  (serve msg rs w).2.2 !! i = Some u →
  let w' := (serve msg rs w).2.1 in
  let ready := reporterReady (diagnostics w') in
  containers (resolve u v w') = containers w'
  ∧ reported (diagnostics (resolve u v w')) =
      reported (diagnostics w')
      ++ (if ready then [("ETP02", "000", js_value (msg_ u))] else [])
  ∧ containers (reject u v w') = containers w'
  ∧ reported (diagnostics (reject u v w')) =
      reported (diagnostics w')
      ++ (if ready then [("ETP03", "000", js_value (msg_ u))] else []).
Proof.
  unfold serve. destruct (chainedPromises_new msg w) as [c w1] eqn:Hnew.
  cbn [fst snd]. intros Hwf Hall Hi.
  destruct (serve_ok msg w) as [Hs Hp]. pose proof (serve_chained msg w) as Hch.
  rewrite Hnew in Hs, Hp, Hch. cbn [fst snd] in *.
  destruct (requests_pending c (length (heap w)) rs (w1, []) [] Hs
              (NoDup_nil_2) (Forall_nil_2 _)) as (Hok & Hlen & Hpend);
    cbn [fst snd length] in *; [by rewrite Hp | done |].
  destruct (requests_chained c (length (heap w)) rs (w1, []) Hs) as [Hc _];
    cbn [fst snd] in *; [lia|].
  destruct (requests c rs (w1, [])) as [w' given]. cbn [fst snd] in *.
  destruct (ok_container _ _ _ Hok) as (cp & _ & Hcp & (Hql & _) & _).
  destruct (ok_given _ _ _ Hok i u Hi) as (_ & _ & Hu). cbn [fst snd] in *.
  rewrite (pending_lookup c _ cp Hcp) in Hpend.
  rewrite (chained_lookup c _ cp Hcp) in Hc.
  pose proof (lookup_lt_Some _ _ _ Hi) as Hlt.
  assert (length (promises cp) ≤ 1)%nat as Hshort by lia.
  assert (chainedCount_ cp ≠ 0) as Hne by lia.
  unfold resolve, reject. rewrite Hu.
  rewrite !(retire_short c _ _ _ cp); rewrite ?settle_containers; try done.
  simpl. rewrite !reportError_reported, !settle_diagnostics, !settle_containers.
  done.
Qed.

Lemma settling_again_is_reported_witness :
  let a := {| promise_ := 1; container_ := Some 0%nat; msg_ := Some "a";
              precedingPromise_ := Some 0%nat |} in
  let w' := (serve "db" [Issue "a"; ResolveNth 0 VNull] (world0 true true)).2.1 in
  containers (resolve a VNull w') = containers w'
  ∧ reported (diagnostics (resolve a VNull w')) = [] ++ [("ETP02", "000", VStr "a")]
  ∧ containers (reject a VNull w') = containers w'
  ∧ reported (diagnostics (reject a VNull w')) = [] ++ [("ETP03", "000", VStr "a")].
Proof.
  intros a w'.
  exact (settling_again_is_reported "db" [Issue "a"; ResolveNth 0 VNull]
           (world0 true true) 0 a VNull eq_refl eq_refl eq_refl).
Defined.

(** * Further properties of persist_idb.js *)

(** ** deleteDatabase *)

Section delete_events.
Implicit Types (d : diag) (e : delete_event).

Lemma Persist_reportError_reported errNum errId info d :
  reported (Persist_reportError_ errNum errId info d) =
  reported d ++ (if reporterReady d
                 then [(Persist_FILE_ID +:+ errNum, errId, info)] else [])
  ∧ reporterReady (Persist_reportError_ errNum errId info d) = reporterReady d
  ∧ DEBUG (Persist_reportError_ errNum errId info d) = DEBUG d.
Proof.
  unfold Persist_reportError_.
  destruct d as [[|] [|] rep lg]; simpl; by rewrite ?app_nil_r.
Qed.

Lemma deleteDatabase_on_reported id e (st : diag * pstate) :
  reported (deleteDatabase_on id e st).1 =
    reported st.1 ++ (if reporterReady st.1 then [delete_report id e] else [])
  ∧ reporterReady (deleteDatabase_on id e st).1 = reporterReady st.1
  ∧ (deleteDatabase_on id e st).2 = settle_once (delete_outcome e) st.2.
Proof.
  destruct e; cbn [deleteDatabase_on fst snd];
    match goal with
    | |- context [Persist_reportError_ ?n ?i ?x ?d] =>
        destruct (Persist_reportError_reported n i x d) as (H1 & H2 & _)
    end;
    (split_and!; [exact H1 | exact H2 | reflexivity]).
Qed.

Lemma deleteDatabase_fold id events (st : diag * pstate) :
  let st' := foldl (λ st e, deleteDatabase_on id e st) st events in
  reported st'.1 =
    reported st.1 ++ (if reporterReady st.1 then delete_report id <$> events else [])
  ∧ st'.2 = match st.2 with
            | Pending => match events with
                         | [] => Pending
                         | e :: _ => delete_outcome e
                         end
            | _ => st.2
            end.
Proof.
  revert st. induction events as [|e events IH]; intros st; cbn zeta.
  - simpl. split; [by destruct (reporterReady _); rewrite app_nil_r|].
    by destruct st.2.
  - cbn [foldl]. destruct (IH (deleteDatabase_on id e st)) as [Hrep Hst].
    cbn zeta in Hrep, Hst.
    destruct (deleteDatabase_on_reported id e st) as (Hrep1 & Hrdy1 & Hst1).
    rewrite Hrep, Hst, Hrep1, Hrdy1, Hst1. split.
    + destruct (reporterReady st.1); simpl; by rewrite <-?app_assoc, ?app_nil_r.
    + destruct st.2, e; simpl; try done; by destruct events.
Qed.
End delete_events.

(** X8. [deleteDatabase] hands every event of the delete request to the
    error reporter, in order, and the first event alone decides the promise:
    a request that is first blocked and then succeeds leaves the promise
    rejected with 2, although the success is reported too. *)
Theorem deleteDatabase_first_event_decides
    (dbName id : string) (events : list delete_event) (d : diag) :
  reported (deleteDatabase dbName id events d).1 =
    reported d ++ (if reporterReady d then delete_report id <$> events else [])
  ∧ (deleteDatabase dbName id events d).2 =
      match events with
      | [] => Pending
      | e :: _ => delete_outcome e
      end
  ∧ (deleteDatabase dbName id (DeleteBlocked :: DeleteSuccess :: events) d).2
    = Rejected (VNum 2).
Proof.
  unfold deleteDatabase. split_and!.
  - apply (deleteDatabase_fold id events (d, Pending)).
  - apply (deleteDatabase_fold id events (d, Pending)).
  - apply (deleteDatabase_fold id (DeleteBlocked :: DeleteSuccess :: events) (d, Pending)).
Qed.

(** ** saveData and getData *)

(** X9. [getData] resolves only with what is stored under key 0 of the named
    store, and only when that value is neither [undefined] nor [null]: it
    resolves with [v] exactly when the get request succeeds on an existing
    store holding such a [v]. *)
Theorem getData_resolves_with_stored_value
    (idb : IDB) (name : string) (r : request_result) (v : jsval) :
  getData idb name r = Fulfilled v ↔
  r = RequestSuccess
  ∧ ∃ store, idb !! name = Some store ∧ store !! 0 = Some v
             ∧ v ≠ VUndefined ∧ v ≠ VNull.
Proof.
  unfold getData. split.
  - destruct (idb !! name) as [store|]; [|done]. destruct r; [|done].
    destruct (store !! 0) as [x|] eqn:Hx; simpl; [|done].
    destruct x; simpl; try done; intros [= <-]; split; try done;
      exists store; by rewrite Hx.
  - intros (-> & store & -> & Hv & Hu & Hn). rewrite Hv. simpl.
    by destruct v.
Qed.

Lemma getData_resolves_with_stored_value_witness :
  getData {["base" := {[0 := VNum 3]}]} "base" RequestSuccess = Fulfilled (VNum 3).
Proof.
  apply (proj2 (getData_resolves_with_stored_value
                  {["base" := {[0 := VNum 3]}]} "base" RequestSuccess (VNum 3))).
  split; [reflexivity|]. exists {[0 := VNum 3]}.
  split; [reflexivity|]. split; [reflexivity|]. split; discriminate.
Defined.

(** X10. Reading back what was saved: after a successful [saveData] of any
    value, [getData] resolves with that value unless it is [undefined] or
    [null], which cannot be read back ([getData] rejects); and of two
    successful saves the later one is read. *)
Theorem saveData_then_getData
    (idb : IDB) (name : string) (store : gmap Z jsval) (v1 v2 : jsval) :
  idb !! name = Some store →
  let idb1 := (saveData idb name v1 RequestSuccess).1 in
  let idb2 := (saveData idb1 name v2 RequestSuccess).1 in
  getData idb1 name RequestSuccess =
    (if ne_undefined v1 then Fulfilled v1 else Rejected (VEvent "success"))
  ∧ getData idb2 name RequestSuccess =
    (if ne_undefined v2 then Fulfilled v2 else Rejected (VEvent "success"))
  ∧ idb2 = (saveData idb name v2 RequestSuccess).1.
Proof.
  intros Hs. unfold saveData, getData. rewrite Hs. cbn [fst snd].
  rewrite lookup_insert_eq. cbn [fst snd].
  rewrite !lookup_insert_eq. simpl.
  split_and!; [done | done |]. by rewrite !insert_insert_eq.
Qed.

Lemma saveData_then_getData_witness :
  let idb1 := (saveData {["base" := ∅]} "base" VNull RequestSuccess).1 in
  let idb2 := (saveData idb1 "base" (VNum 2) RequestSuccess).1 in
  getData idb1 "base" RequestSuccess = Rejected (VEvent "success")
  ∧ getData idb2 "base" RequestSuccess = Fulfilled (VNum 2)
  ∧ idb2 = (saveData {["base" := ∅]} "base" (VNum 2) RequestSuccess).1.
Proof.
  exact (saveData_then_getData {["base" := ∅]} "base" ∅ VNull (VNum 2) eq_refl).
Defined.



(** ** openIndexedDB *)

Section open_events.
Variables IDB_BASE IDB_CHARLIST dbName id : string.
Implicit Types (db : IDB) (run : open_run) (e : open_event).

Lemma contains_lookup name db :
  objectStoreNames_contains name db = true ↔ is_Some (db !! name).
Proof. unfold objectStoreNames_contains. apply bool_decide_eq_true. Qed.

Lemma delete_if_contains name db :
  (if objectStoreNames_contains name db then deleteObjectStore name db else db)
  = delete name db.
Proof.
  unfold deleteObjectStore.
  destruct (objectStoreNames_contains name db) eqn:Hc; [done|].
  symmetry. apply delete_id. apply eq_None_not_Some.
  intros H%contains_lookup. congruence.
Qed.

Lemma createObjectStore_absent name db :
  db !! name = None → createObjectStore name db = Some (<[name := ∅]> db).
Proof.
  intros Hn. unfold createObjectStore.
  destruct (objectStoreNames_contains name db) eqn:Hc; [|done].
  apply contains_lookup in Hc. rewrite Hn in Hc. by destruct Hc.
Qed.

Lemma onupgradeneeded_distinct db :
  IDB_BASE ≠ IDB_CHARLIST →
  onupgradeneeded IDB_BASE IDB_CHARLIST db
  = Some (<[IDB_CHARLIST := ∅]> (<[IDB_BASE := ∅]> db)).
Proof.
  intros Hne. unfold onupgradeneeded. rewrite !delete_if_contains.
  rewrite createObjectStore_absent
    by (rewrite lookup_delete_ne by done; apply lookup_delete_eq).
  rewrite createObjectStore_absent
    by (rewrite lookup_insert_ne by done; apply lookup_delete_eq).
  f_equal. apply map_eq. intros n.
  destruct (decide (n = IDB_CHARLIST)) as [-> | Hc].
  { by rewrite !lookup_insert_eq. }
  rewrite !(lookup_insert_ne _ IDB_CHARLIST) by done.
  destruct (decide (n = IDB_BASE)) as [-> | Hb].
  { by rewrite !lookup_insert_eq. }
  rewrite !(lookup_insert_ne _ IDB_BASE) by done.
  by rewrite !lookup_delete_ne by done.
Qed.

Lemma onupgradeneeded_same_name db : onupgradeneeded IDB_BASE IDB_BASE db = None.
Proof.
  unfold onupgradeneeded. rewrite !delete_if_contains.
  rewrite createObjectStore_absent
    by (rewrite delete_delete_eq; apply lookup_delete_eq).
  unfold createObjectStore.
  replace (objectStoreNames_contains IDB_BASE _) with true; [done|].
  symmetry. apply contains_lookup. rewrite lookup_insert_eq. eauto.
Qed.

Lemma open_settled_stays events run :
  open_promise run ≠ OpenPending →
  open_promise (foldl (openIndexedDB_on IDB_BASE IDB_CHARLIST dbName id) run events)
  = open_promise run.
Proof.
  revert run. induction events as [|e events IH]; intros run Hp; [done|].
  cbn [foldl]. rewrite IH.
  - destruct e; simpl; try done; try by destruct (open_promise run).
    destruct (upgrade_onerror run); simpl; [|done]. by destruct (open_promise run).
  - destruct e; simpl; try done; try by destruct (open_promise run).
    destruct (upgrade_onerror run); simpl; [|done]. by destruct (open_promise run).
Qed.

Lemma open_reported_grows events run :
  ∃ more,
    reported (open_diag (foldl (openIndexedDB_on IDB_BASE IDB_CHARLIST dbName id)
                           run events))
    = reported (open_diag run) ++ more.
Proof.
  revert run. induction events as [|e events IH]; intros run.
  { exists []. by rewrite app_nil_r. }
  cbn [foldl]. destruct (IH (openIndexedDB_on IDB_BASE IDB_CHARLIST dbName id run e))
    as [more ->].
  destruct e; simpl; eauto.
  - destruct (Persist_reportError_reported OPEN_IDB id
                (VStr ("!!! openIndexedDB " +:+ dquote +:+ dbName)) (open_diag run))
      as (-> & _). rewrite <-app_assoc. eauto.
  - destruct (upgrade_onerror run); simpl; eauto.
    destruct (Persist_reportError_reported IDB_ON_UPGRAGE_NEEDED id
                (VStr ("onupgradeneeded error: " +:+ js_string value)) (open_diag run))
      as (-> & _). rewrite <-app_assoc. eauto.
Qed.

Lemma open_without_errors events :
  Forall (λ e, e = OpenSuccess ∨ e = OpenUpgradeNeeded) events →
  ∀ run,
    let run' := foldl (openIndexedDB_on IDB_BASE IDB_CHARLIST dbName id) run events in
    open_diag run' = open_diag run
    ∧ open_promise run' =
        match open_promise run with
        | OpenPending =>
            if bool_decide (OpenSuccess ∈ events) then OpenResolved else OpenPending
        | p => p
        end.
Proof.
  induction 1 as [|e events He _ IH]; intros run; cbn zeta.
  { simpl. split; [done|]. by destruct (open_promise run). }
  cbn [foldl]. destruct (IH (openIndexedDB_on IDB_BASE IDB_CHARLIST dbName id run e))
    as [-> ->].
  destruct He as [-> | ->]; simpl; split; try done.
  - by destruct (open_promise run).
  - destruct (open_promise run); try done.
    destruct (decide (OpenSuccess ∈ events)) as [Hin | Hnin].
    + rewrite !bool_decide_eq_true_2; [done | by right | done].
    + rewrite !bool_decide_eq_false_2; [done | | done].
      by intros [? | ?]%elem_of_cons.
Qed.

Lemma open_stores events :
  IDB_BASE ≠ IDB_CHARLIST →
  ∀ run,
    open_db (foldl (openIndexedDB_on IDB_BASE IDB_CHARLIST dbName id) run events) =
    if bool_decide (OpenUpgradeNeeded ∈ events)
    then <[IDB_CHARLIST := ∅]> (<[IDB_BASE := ∅]> (open_db run))
    else open_db run.
Proof.
  intros Hne. induction events as [|e events IH]; intros run; [done|].
  cbn [foldl]. rewrite IH.
  destruct (decide (e = OpenUpgradeNeeded)) as [-> | He].
  - rewrite (bool_decide_eq_true_2 (OpenUpgradeNeeded ∈ OpenUpgradeNeeded :: events))
      by by left.
    simpl. rewrite onupgradeneeded_distinct by done. simpl.
    destruct (bool_decide _); [|done].
    apply map_eq. intros n.
    repeat (rewrite lookup_insert; case_decide); congruence.
  - assert (open_db (openIndexedDB_on IDB_BASE IDB_CHARLIST dbName id run e)
            = open_db run) as ->.
    { destruct e; simpl; try done. by destruct (upgrade_onerror run). }
    destruct (decide (OpenUpgradeNeeded ∈ events)) as [Hin | Hnin].
    + rewrite !bool_decide_eq_true_2; [done | by right | done].
    + rewrite !bool_decide_eq_false_2; [done | | done].
      by intros [? | ?]%elem_of_cons.
Qed.
End open_events.

(** X12. With two different store names, the upgrade handler of
    [openIndexedDB] leaves both stores existing and empty, whatever they held
    before, and no other store touched: what was saved under either name can
    no longer be read, and running the handler again changes nothing.  With
    equal names the second [createObjectStore] raises. *)
Theorem upgrade_recreates_both_stores (IDB_BASE IDB_CHARLIST : string) (db : IDB) :
  IDB_BASE ≠ IDB_CHARLIST →
  let db' := <[IDB_CHARLIST := ∅]> (<[IDB_BASE := ∅]> db) in
  onupgradeneeded IDB_BASE IDB_CHARLIST db = Some db'
  ∧ db' !! IDB_BASE = Some ∅
  ∧ db' !! IDB_CHARLIST = Some ∅
  ∧ (∀ n, n ≠ IDB_BASE → n ≠ IDB_CHARLIST → db' !! n = db !! n)
  ∧ (∀ r v, getData db' IDB_BASE r ≠ Fulfilled v
            ∧ getData db' IDB_CHARLIST r ≠ Fulfilled v)
  ∧ onupgradeneeded IDB_BASE IDB_CHARLIST db' = Some db'
  ∧ onupgradeneeded IDB_BASE IDB_BASE db = None.
Proof.
  intros Hne db'.
  assert (db' !! IDB_BASE = Some ∅) as Hb
    by (unfold db'; by rewrite lookup_insert_ne, lookup_insert_eq).
  assert (db' !! IDB_CHARLIST = Some ∅) as Hc
    by (unfold db'; by rewrite lookup_insert_eq).
  split_and!; try done.
  - by apply onupgradeneeded_distinct.
  - intros n Hnb Hnc. unfold db'. by rewrite !lookup_insert_ne.
  - intros r v. unfold getData. rewrite Hb, Hc. simpl. by destruct r.
  - rewrite onupgradeneeded_distinct by done. f_equal. apply map_eq. intros n.
    destruct (decide (n = IDB_CHARLIST)) as [-> | Hnc].
    { by rewrite lookup_insert_eq. }
    rewrite lookup_insert_ne by done.
    destruct (decide (n = IDB_BASE)) as [-> | Hnb].
    { by rewrite lookup_insert_eq. }
    by rewrite lookup_insert_ne.
  - apply onupgradeneeded_same_name.
Qed.

Lemma upgrade_recreates_both_stores_witness :
  let db : IDB := {["base" := {[0 := VNum 1]}; "other" := {[0 := VNum 2]}]} in
  let db' := <["charlist" := ∅]> (<["base" := ∅]> db) in
  onupgradeneeded "base" "charlist" db = Some db'
  ∧ db' !! "base" = Some ∅
  ∧ db' !! "charlist" = Some ∅
  ∧ (∀ n, n ≠ "base" → n ≠ "charlist" → db' !! n = db !! n)
  ∧ (∀ r v, getData db' "base" r ≠ Fulfilled v
            ∧ getData db' "charlist" r ≠ Fulfilled v)
  ∧ onupgradeneeded "base" "charlist" db' = Some db'
  ∧ onupgradeneeded "base" "base" db = None.
Proof.
  intros db db'.
  apply (upgrade_recreates_both_stores "base" "charlist" db). discriminate.
Defined.



(** * Promises outside a sequencer, and the two settle operations *)

(** X14. A promise built by the constructor without a container: [resolve]
    and [reject] settle its own new [goog.Promise] with the value passed,
    unchanged, and touch no sequencer and no diagnostics; asking it for its
    preceding promise returns [undefined] and is reported as ETP01 with the
    promise's message when the Reporter is ready. *)
Theorem standalone_promise (opt_msg : option string) (v : jsval) (w : world) :
  let u := (promise_new None opt_msg w).1 in
  let w1 := (promise_new None opt_msg w).2 in
  heap (resolve u v w1) = heap w ++ [Fulfilled v]
  ∧ heap (reject u v w1) = heap w ++ [Rejected v]
  ∧ containers (resolve u v w1) = containers w
  ∧ containers (reject u v w1) = containers w
  ∧ diagnostics (resolve u v w1) = diagnostics w
  ∧ diagnostics (reject u v w1) = diagnostics w
  ∧ (getPrecedingPromise u w1).1 = None
  ∧ reported (diagnostics (getPrecedingPromise u w1).2) =
      reported (diagnostics w)
      ++ (if reporterReady (diagnostics w)
          then [("ETP01", "000", js_value opt_msg)] else []).
Proof.
  intros u w1. unfold u, w1, promise_new, goog_Promise_new, resolve, reject.
  cbn [fst snd container_ promise_].
  assert (∀ s, settle (length (heap w)) s
                 {| diagnostics := diagnostics w; heap := heap w ++ [Pending];
                    settledLog := settledLog w; containers := containers w |}
               = {| diagnostics := diagnostics w; heap := heap w ++ [s];
                    settledLog := settledLog w ++ [length (heap w)];
                    containers := containers w |}) as Hsettle.
  { intros s. unfold settle. cbn [heap].
    rewrite lookup_app_r, Nat.sub_diag by done. simpl.
    by rewrite insert_app_r_alt, Nat.sub_diag by done. }
  rewrite !Hsettle. split_and!; try done.
  unfold getPrecedingPromise. simpl. apply reportError_reported.
Qed.

Lemma retire_logged (e1 e2 : string) (m : option string) (c : nat) (w1 w2 : world) :
  containers w1 = containers w2 → diagnostics w1 = diagnostics w2 →
  logged (diagnostics (retire e1 m c w1)) = logged (diagnostics (retire e2 m c w2)).
Proof.
  destruct w1 as [d1 h1 l1 cs1], w2 as [d2 h2 l2 cs2]. simpl.
  intros -> ->. unfold retire. simpl.
  destruct (cs2 !! c) as [cp|]; [|done].
  unfold promise_reportError_.
  destruct (length (promises cp) <=? 1)%nat, (negb (chainedCount_ cp =? 0)),
           (1 <? length (promises cp))%nat, d2 as [[|] [|] rep lg]; simpl; done.
Qed.

